(** * bbloker-go: the detection pipeline, rule manager, rate limiter and
      telemetry client, embedded from the Go sources.

    Conventions of the embedding.
    - A Go [string] is a sequence of bytes: [string] of [ascii].
    - [int] and [int64] are 64-bit two's complement ([wrap64]), [uint32] and
      [uint64] are taken modulo their width ([wrap32], [wrap64u]).
    - [float64] is IEEE 754 binary64: the primitive [float].
    - [time.Now().UnixMilli()] is an explicit argument [now].
    - A mutated receiver is returned as the new state.
    - The functions of Go's standard library that the code calls
      ([strings.SplitN], [strings.ToLower], [strings.Contains],
      [fmt.Sscanf] with the verb [%d], [sort.Strings],
      [textproto.CanonicalMIMEHeaderKey]) are written out from their
      documented behaviour; [regexp] is an interface the development is
      parametric in. *)

From Stdlib Require Import ZArith Floats Ascii String.
From stdpp Require Import gmap strings list fin_maps sorting.

Set Warnings "-inexact-float".
Local Open Scope Z_scope.

(* ===================================================================== *)
(** ** Machine integers *)
(* ===================================================================== *)

Definition wrap32 (z : Z) : Z := z mod 2 ^ 32.

Definition wrap64u (z : Z) : Z := z mod 2 ^ 64.

Definition wrap64 (z : Z) : Z := (z + 2 ^ 63) mod 2 ^ 64 - 2 ^ 63.

Definition minInt64 : Z := - 2 ^ 63.
Definition maxInt64 : Z := 2 ^ 63 - 1.

(* ===================================================================== *)
(** ** Go's [strings] package, on byte strings *)
(* ===================================================================== *)

Definition byteOf (c : ascii) : Z := Z.of_nat (nat_of_ascii c).

(** [strings.Cut(s, sep)] for a one-byte separator: the text before and
    after the first [sep], when there is one. *)
Fixpoint Cut (sep : ascii) (s : string) : option (string * string) :=
  match s with
  | EmptyString => None
  | String c r =>
      if Ascii.eqb c sep then Some (EmptyString, r)
      else match Cut sep r with
           | Some (a, b) => Some (String c a, b)
           | None => None
           end
  end.

(** [strings.SplitN(s, sep, n)] for a one-byte separator and [n >= 0]: at
    most [n] pieces, the last one the unsplit remainder. *)
Fixpoint SplitN (sep : ascii) (n : nat) (s : string) : list string :=
  match n with
  | O => []
  | S O => [s]
  | S n' =>
      match Cut sep s with
      | Some (a, b) => a :: SplitN sep n' b
      | None => [s]
      end
  end.

(** [strings.ToLower]: the letters [A]..[Z] are mapped to [a]..[z]. Bytes
    from 0x80 on (the multi-byte runes of a UTF-8 text) are kept. *)
Definition lowerByte (c : ascii) : ascii :=
  let n := nat_of_ascii c in
  if ((65 <=? n) && (n <=? 90))%nat then ascii_of_nat (n + 32) else c.

Fixpoint ToLower (s : string) : string :=
  match s with
  | EmptyString => EmptyString
  | String c r => String (lowerByte c) (ToLower r)
  end.

(** [strings.HasPrefix(s, p)]. *)
Fixpoint HasPrefix (s p : string) {struct p} : bool :=
  match p, s with
  | EmptyString, _ => true
  | String _ _, EmptyString => false
  | String b p', String a s' => Ascii.eqb a b && HasPrefix s' p'
  end.

(** [strings.Contains(s, sub)]. *)
Fixpoint Contains (s sub : string) : bool :=
  HasPrefix s sub ||
  match s with
  | EmptyString => false
  | String _ r => Contains r sub
  end.

(** [strings.Count(s, sep)] for a one-byte separator. *)
Fixpoint Count (sep : ascii) (s : string) : nat :=
  match s with
  | EmptyString => O
  | String c r => ((if Ascii.eqb c sep then 1 else 0) + Count sep r)%nat
  end.

(** [strings.Join(v, sep)]. *)
Fixpoint Join (v : list string) (sep : string) : string :=
  match v with
  | [] => EmptyString
  | [a] => a
  | a :: r => a +:+ sep +:+ Join r sep
  end.

(** [strings.LastIndex(s, sub)], as the text before the last occurrence and
    the text from it on. *)
Fixpoint LastIndex (s sub : string) : option (string * string) :=
  match s with
  | EmptyString => if HasPrefix EmptyString sub then Some (EmptyString, EmptyString) else None
  | String c r =>
      match LastIndex r sub with
      | Some (a, b) => Some (String c a, b)
      | None => if HasPrefix s sub then Some (EmptyString, s) else None
      end
  end.

Definition asciiSpace (c : ascii) : bool :=
  let n := nat_of_ascii c in
  ((n =? 9) || (n =? 10) || (n =? 11) || (n =? 12) || (n =? 13) || (n =? 32))%nat.

Fixpoint trimLeft (s : string) : string :=
  match s with
  | String c r => if asciiSpace c then trimLeft r else s
  | EmptyString => EmptyString
  end.

Fixpoint trimRight (s : string) : string :=
  match s with
  | String c r =>
      match trimRight r with
      | EmptyString => if asciiSpace c then EmptyString else String c EmptyString
      | t => String c t
      end
  | EmptyString => EmptyString
  end.

(** [strings.TrimSpace], for the white space of the ASCII range. *)
Definition TrimSpace (s : string) : string := trimRight (trimLeft s).

(* ===================================================================== *)
(** ** [fmt.Sscanf(s, "%d", &v)] *)
(* ===================================================================== *)

(** One white-space rune (other than a newline) at the head of the input,
    in UTF-8: U+0009, U+000B..U+000D, U+0020, U+0085, U+00A0, U+1680,
    U+2000..U+200A, U+2028, U+2029, U+202F, U+205F, U+3000. *)
Definition spaceRune (s : string) : option string :=
  match s with
  | EmptyString => None
  | String c r =>
      let n := byteOf c in
      if (n =? 9) || (n =? 11) || (n =? 12) || (n =? 13) || (n =? 32) then Some r
      else
        match r with
        | String d r1 =>
            let m := byteOf d in
            if (n =? 194) && ((m =? 133) || (m =? 160)) then Some r1
            else
              match r1 with
              | String e r2 =>
                  let k := byteOf e in
                  if (n =? 225) && (m =? 154) && (k =? 128) then Some r2
                  else if (n =? 226) && (m =? 128)
                          && (((128 <=? k) && (k <=? 138)) || (k =? 168)
                              || (k =? 169) || (k =? 175)) then Some r2
                  else if (n =? 226) && (m =? 129) && (k =? 159) then Some r2
                  else if (n =? 227) && (m =? 128) && (k =? 128) then Some r2
                  else None
              | EmptyString => None
              end
        | EmptyString => None
        end
  end.

(** [ss.SkipSpace] with [nlIsSpace = false]: leading white space is
    dropped; a newline is an error. *)
Fixpoint skipSpaceN (fuel : nat) (s : string) : option string :=
  match fuel with
  | O => Some s
  | S fuel' =>
      match s with
      | EmptyString => Some s
      | String c _ =>
          if byteOf c =? 10 then None
          else match spaceRune s with
               | Some r => skipSpaceN fuel' r
               | None => Some s
               end
      end
  end.

Definition SkipSpace (s : string) : option string :=
  skipSpaceN (String.length s) s.

Definition isDigit (c : ascii) : bool :=
  let n := byteOf c in (48 <=? n) && (n <=? 57).

(** The digits the verb [%d] accepts: [0123456789_]. *)
Definition isScanDigit (c : ascii) : bool := isDigit c || (byteOf c =? 95).

Fixpoint scanNumber (s : string) : string :=
  match s with
  | String c r => if isScanDigit c then String c (scanNumber r) else EmptyString
  | EmptyString => EmptyString
  end.

(** [strconv.ParseUint(tok, 10, 64)] on a non-empty token, before the range
    check: an underscore is a syntax error in base 10. *)
Fixpoint parseDecimal (acc : Z) (tok : string) : option Z :=
  match tok with
  | EmptyString => Some acc
  | String c r =>
      if isDigit c then parseDecimal (10 * acc + (byteOf c - 48)) r else None
  end.

(** [ss.scanInt('d', 64)]: white space, an optional sign, a non-empty
    run of digits, [strconv.ParseInt] in base 10 on 64 bits. [None] is any
    of its errors (unexpected newline, unexpected EOF, expected integer,
    invalid syntax, value out of range). *)
Definition scanInt (s : string) : option Z :=
  match SkipSpace s with
  | None => None
  | Some s1 =>
      let '(neg, s2) :=
        match s1 with
        | String c r =>
            if byteOf c =? 45 then (true, r)
            else if byteOf c =? 43 then (false, r)
            else (false, s1)
        | EmptyString => (false, s1)
        end in
      match scanNumber s2 with
      | EmptyString => None
      | tok =>
          match parseDecimal 0 tok with
          | None => None
          | Some v =>
              let i := if neg then - v else v in
              if (minInt64 <=? i) && (i <=? maxInt64) then Some i else None
          end
      end
  end.

(** [fmt.Sscanf(s, "%d", &v)] with its results dropped: [v] is assigned
    only when the scan succeeds. *)
Definition Sscanf_d (s : string) (v : Z) : Z :=
  match scanInt s with
  | Some i => i
  | None => v
  end.

(* ===================================================================== *)
(** ** ip.go *)
(* ===================================================================== *)

Fixpoint ipLoop (parts : list string) (result : Z) : Z :=
  match parts with
  | [] => result
  | p :: ps =>
      let octet := Sscanf_d p 0 in
      if (octet <? 0) || (255 <? octet) then 0
      else ipLoop ps (wrap32 (Z.lor (Z.shiftl result 8) (wrap32 octet)))
  end.

Definition ipToUint32 (ip : string) : Z :=
  let parts := SplitN "." 4 ip in
  if negb (length parts =? 4)%nat then 0
  else ipLoop parts 0.

Definition cidrContains (cidr ip : string) : bool :=
  match SplitN "/" 2 cidr with
  | [p0; p1] =>
      let cidrIP := ipToUint32 p0 in
      let targetIP := ipToUint32 ip in
      if (cidrIP =? 0) || (targetIP =? 0) then false
      else
        let bits := Sscanf_d p1 0 in
        if (bits <? 0) || (32 <? bits) then false
        else
          let mask := wrap32 (Z.shiftl 4294967295 (32 - bits)) in
          Z.land cidrIP mask =? Z.land targetIP mask
  | _ => String.eqb cidr ip
  end.

(** [addr[1:idx]] panics when [idx = 0] (slice bounds out of range):
    [None] is that panic. *)
Definition stripPort (addr : string) : option string :=
  match LastIndex addr "]:" with
  | Some (before, _) =>
      match before with
      | String _ r => Some r
      | EmptyString => None
      end
  | None =>
      if (Count ":" addr =? 1)%nat then
        match Cut ":" addr with
        | Some (host, _) => Some host
        | None => Some addr
        end
      else Some addr
  end.

(* ===================================================================== *)
(** ** [net/http]: the request as the handler receives it *)
(* ===================================================================== *)

(** A header field byte that [textproto] lets in a canonical key: a letter,
    a digit or one of [!#$%&'*+-.^_`|~]. *)
Definition validHeaderFieldByte (c : ascii) : bool :=
  let n := byteOf c in
  ((48 <=? n) && (n <=? 57)) || ((65 <=? n) && (n <=? 90))
  || ((97 <=? n) && (n <=? 122))
  || (n =? 33) || ((35 <=? n) && (n <=? 39)) || (n =? 42) || (n =? 43)
  || (n =? 45) || (n =? 46) || (n =? 94) || (n =? 95) || (n =? 96)
  || (n =? 124) || (n =? 126).

Fixpoint allBytes (p : ascii -> bool) (s : string) : bool :=
  match s with
  | EmptyString => true
  | String c r => p c && allBytes p r
  end.

Fixpoint canonicalLoop (upper : bool) (s : string) : string :=
  match s with
  | EmptyString => EmptyString
  | String c r =>
      let n := nat_of_ascii c in
      let c' :=
        if upper && ((97 <=? n) && (n <=? 122))%nat then ascii_of_nat (n - 32)
        else if negb upper && ((65 <=? n) && (n <=? 90))%nat then ascii_of_nat (n + 32)
        else c in
      String c' (canonicalLoop (Ascii.eqb c' "-") r)
  end.

(** [textproto.CanonicalMIMEHeaderKey]: a key with a byte that is not a
    header field byte is returned as it is. *)
Definition CanonicalMIMEHeaderKey (s : string) : string :=
  if allBytes validHeaderFieldByte s then canonicalLoop true s else s.

(** [http.Request], the fields the package reads: [Method], [URL.Path],
    [Header] (a [map[string][]string]) and [RemoteAddr]. *)
Record Request := {
  reqMethod : string;
  reqPath : string;
  reqHeader : gmap string (list string);
  reqRemoteAddr : string
}.

(** [http.Header.Get]: the first value under the canonical form of the key,
    or the empty string. *)
Definition HeaderGet (h : gmap string (list string)) (key : string) : string :=
  match h !! CanonicalMIMEHeaderKey key with
  | Some (v :: _) => v
  | _ => EmptyString
  end.

(** The request on the wire: the header fields in the order they were
    sent. The server's reader files every field under its canonical key and
    appends its value to the values already read for that key. *)
Record RawRequest := {
  rawMethod : string;
  rawPath : string;
  rawFields : list (string * string);
  rawRemoteAddr : string
}.

Definition addField (h : gmap string (list string)) (f : string * string)
  : gmap string (list string) :=
  let key := CanonicalMIMEHeaderKey (fst f) in
  <[key := default [] (h !! key) ++ [snd f]]> h.

Definition readRequest (raw : RawRequest) : Request :=
  {| reqMethod := rawMethod raw;
     reqPath := rawPath raw;
     reqHeader := foldl addField ∅ (rawFields raw);
     reqRemoteAddr := rawRemoteAddr raw |}.

(** ip.go, [extractIP]. *)
Definition extractIP (r : Request) : option string :=
  let xff := HeaderGet (reqHeader r) "X-Forwarded-For" in
  if negb (String.eqb xff EmptyString) then
    stripPort (TrimSpace (default EmptyString (head (SplitN "," 2 xff))))
  else
    let xri := HeaderGet (reqHeader r) "X-Real-IP" in
    if negb (String.eqb xri EmptyString) then stripPort (TrimSpace xri)
    else stripPort (reqRemoteAddr r).

(* ===================================================================== *)
(** ** The rate limiter *)
(* ===================================================================== *)

Record window := {
  count : Z;
  resetAt : Z
}.

Record rateLimiter := {
  windows : gmap string window;
  maxRequests : Z;
  windowMs : Z
}.

Definition setWindows (rl : rateLimiter) (ws : gmap string window) : rateLimiter :=
  {| windows := ws; maxRequests := maxRequests rl; windowMs := windowMs rl |}.

(** [newRateLimiter], without the cleanup goroutine it starts. *)
Definition newRateLimiter (maxReq : Z) (windowDurMs : Z) : rateLimiter :=
  {| windows := ∅; maxRequests := maxReq; windowMs := windowDurMs |}.

Definition freshWindow (rl : rateLimiter) (now : Z) : window :=
  {| count := 1; resetAt := wrap64 (now + windowMs rl) |}.

Definition isExceeded (rl : rateLimiter) (now : Z) (ip : string)
  : bool * rateLimiter :=
  match windows rl !! ip with
  | Some w =>
      if resetAt w <=? now then
        (false, setWindows rl (<[ip := freshWindow rl now]> (windows rl)))
      else
        let w' := {| count := wrap64 (count w + 1); resetAt := resetAt w |} in
        (maxRequests rl <? count w', setWindows rl (<[ip := w']> (windows rl)))
  | None =>
      (false, setWindows rl (<[ip := freshWindow rl now]> (windows rl)))
  end.

Definition cleanup (rl : rateLimiter) (now : Z) : rateLimiter :=
  setWindows rl (filter (λ kw, now < resetAt (snd kw)) (windows rl)).

(** A run of calls [isExceeded(ip)], one per clock reading, oldest first. *)
Fixpoint isExceededSeq (rl : rateLimiter) (ip : string) (times : list Z)
  : list bool * rateLimiter :=
  match times with
  | [] => ([], rl)
  | now :: rest =>
      let '(b, rl1) := isExceeded rl now ip in
      let '(bs, rl2) := isExceededSeq rl1 ip rest in
      (b :: bs, rl2)
  end.

(* ===================================================================== *)
(** ** The rule manager *)
(* ===================================================================== *)

Record HeaderPattern := {
  Name : string;
  Pattern : string;
  Weight : float
}.

Record RuleSet := {
  Version : Z;
  UpdatedAt : string;
  BlockedUAs : list string;
  BlockedIPs : list string;
  HeaderPatterns : list HeaderPattern;
  AnomalyThreshold : float
}.

Definition defaultRules : RuleSet :=
  {| Version := 1;
     UpdatedAt := "2026-02-06";
     BlockedUAs :=
       [ "GPTBot"; "ChatGPT-User"; "OAI-SearchBot";
         "CCBot";
         "anthropic-ai"; "ClaudeBot"; "Claude-Web";
         "Meta-ExternalAgent"; "Meta-ExternalFetcher"; "FacebookBot";
         "facebookexternalhit";
         "PerplexityBot";
         "Bytespider";
         "Google-Extended";
         "Applebot-Extended";
         "cohere-ai";
         "Diffbot";
         "ImagesiftBot";
         "Omgilibot";
         "Omgili";
         "YouBot";
         "Amazonbot";
         "AI2Bot"; "Ai2Bot-Dolma";
         "Scrapy";
         "PetalBot";
         "Semrushbot";
         "AhrefsBot";
         "MJ12bot";
         "DotBot";
         "Seekport";
         "BLEXBot";
         "DataForSeoBot";
         "magpie-crawler";
         "Timpibot";
         "Velenpublicwebcrawler";
         "Webzio-Extended";
         "iaskspider";
         "Kangaroo Bot";
         "img2dataset" ];
     BlockedIPs :=
       [ "20.15.240.0/20";
         "20.171.206.0/23";
         "40.83.2.0/23";
         "52.230.152.0/21";
         "20.171.207.0/24" ];
     HeaderPatterns :=
       [ {| Name := "accept"; Pattern := "^\*\/\*$"; Weight := 0.3 |};
         {| Name := "accept-language"; Pattern := "^$"; Weight := 0.5 |};
         {| Name := "accept-encoding"; Pattern := "^$"; Weight := 0.4 |} ];
     AnomalyThreshold := 0.7 |}.

(** Go's [regexp] package, as far as the rule manager uses it:
    [regexp.Compile] ([None] is its error) and [Regexp.MatchString]. *)
Class Regexp := {
  Regex : Type;
  Compile : string → option Regex;
  MatchString : Regex → string → bool
}.

Section rules.
Context {RE : Regexp}.

Record ruleManager := {
  current : RuleSet;
  uaLower : list string;
  headerRe : list (option Regex);
  rmAPIURL : string;
  rmAPIKey : string
}.

(** The two loops of [applyRules], from index [i] on. The slices were
    made with the length of the list the loop ranges over, so the
    assignment at [i] is in range. *)
Fixpoint lowerLoop (i : nat) (uas : list string) (lower : list string)
  : list string :=
  match uas with
  | [] => lower
  | ua :: rest => lowerLoop (S i) rest (<[i := ToLower ua]> lower)
  end.

Fixpoint compileLoop (i : nat) (hps : list HeaderPattern)
    (compiled : list (option Regex)) : list (option Regex) :=
  match hps with
  | [] => compiled
  | hp :: rest =>
      match Compile (Pattern hp) with
      | None => compileLoop (S i) rest compiled
      | Some rx => compileLoop (S i) rest (<[i := Some rx]> compiled)
      end
  end.

Definition applyRules (rm : ruleManager) (rs : RuleSet) : ruleManager :=
  let lower :=
    lowerLoop 0 (BlockedUAs rs)
      (replicate (length (BlockedUAs rs)) EmptyString) in
  let compiled :=
    compileLoop 0 (HeaderPatterns rs)
      (replicate (length (HeaderPatterns rs)) None) in
  {| current := rs;
     uaLower := lower;
     headerRe := compiled;
     rmAPIURL := rmAPIURL rm;
     rmAPIKey := rmAPIKey rm |}.

(** [newRuleManager], without the sync goroutine it starts. *)
Definition newRuleManager (url key : string) : ruleManager :=
  applyRules
    {| current := {| Version := 0; UpdatedAt := EmptyString; BlockedUAs := [];
                     BlockedIPs := []; HeaderPatterns := [];
                     AnomalyThreshold := 0 |};
       uaLower := []; headerRe := [];
       rmAPIURL := url; rmAPIKey := key |}
    defaultRules.

(** [syncOnce]: [fetched] is the rule set decoded from the response, or
    [None] when the request, its status or the decoding failed. *)
Definition syncOnce (rm : ruleManager) (fetched : option RuleSet) : ruleManager :=
  match fetched with
  | None => rm
  | Some rs =>
      let currentVersion := Version (current rm) in
      if currentVersion <? Version rs then applyRules rm rs else rm
  end.

Fixpoint anyContains (lower : string) (patterns : list string) : bool :=
  match patterns with
  | [] => false
  | pattern :: rest =>
      if Contains lower pattern then true else anyContains lower rest
  end.

Definition isBlockedUA (rm : ruleManager) (ua : string) : bool :=
  let lower := ToLower ua in
  anyContains lower (uaLower rm).

Fixpoint anyCidrContains (cidrs : list string) (ip : string) : bool :=
  match cidrs with
  | [] => false
  | cidr :: rest =>
      if cidrContains cidr ip then true else anyCidrContains rest ip
  end.

Definition isBlockedIP (rm : ruleManager) (ip : string) : bool :=
  anyCidrContains (BlockedIPs (current rm)) ip.

(** The loop of [headerAnomalyScore] from index [i] on. [None] is the
    panic of an index [headerRe[i]] out of range. *)
Fixpoint scoreLoop (re : list (option Regex)) (headers : gmap string string)
    (i : nat) (hps : list HeaderPattern) (score : float) : option float :=
  match hps with
  | [] => Some score
  | hp :: rest =>
      match re !! i with
      | None => None
      | Some None => scoreLoop re headers (S i) rest score
      | Some (Some rx) =>
          let val := default EmptyString (headers !! Name hp) in
          if MatchString rx val
          then scoreLoop re headers (S i) rest (score + Weight hp)%float
          else scoreLoop re headers (S i) rest score
      end
  end.

Definition headerAnomalyScore (rm : ruleManager) (headers : gmap string string)
  : option float :=
  scoreLoop (headerRe rm) headers 0 (HeaderPatterns (current rm)) 0%float.

Definition anomalyThreshold (rm : ruleManager) : float :=
  AnomalyThreshold (current rm).

End rules.

(* ===================================================================== *)
(** ** The telemetry client and the fingerprint *)
(* ===================================================================== *)

(** Go's [<=] on strings: byte-wise lexicographic. *)
Definition strLe (a b : string) : Prop := String.leb a b = true.

#[global] Instance strLe_dec : RelDecision strLe :=
  λ a b, decide (String.leb a b = true).

(** [sort.Strings]. *)
Definition sortStrings (l : list string) : list string := merge_sort strLe l.

(** [Ts] holds [float64(time.Now().UnixMilli())], written as the integer it
    is converted from. *)
Record fingerprint := {
  IP : string;
  UserAgent : string;
  HeaderOrder : list string;
  Headers : gmap string string;
  Path : string;
  Method : string;
  Ts : Z
}.

Record telemetryClient := {
  buffer : list fingerprint;
  apiURL : string;
  apiKey : string;
  maxBuffer : Z;
  enabled : bool
}.

Definition setBuffer (tc : telemetryClient) (buf : list fingerprint)
  : telemetryClient :=
  {| buffer := buf; apiURL := apiURL tc; apiKey := apiKey tc;
     maxBuffer := maxBuffer tc; enabled := enabled tc |}.

(** [newTelemetryClient], without the flush goroutine it starts. *)
Definition newTelemetryClient (url key : string) (maxBuf : Z) (en : bool)
  : telemetryClient :=
  {| buffer := []; apiURL := url; apiKey := key; maxBuffer := maxBuf;
     enabled := en |}.

(** [push]: the new client, and [shouldFlush], on which the caller's
    goroutine starts [go tc.flush()]. *)
Definition push (tc : telemetryClient) (fp : fingerprint)
  : telemetryClient * bool :=
  if negb (enabled tc) then (tc, false)
  else
    let buf := buffer tc ++ [fp] in
    let shouldFlush := maxBuffer tc <=? Z.of_nat (length buf) in
    (setBuffer tc buf, shouldFlush).

(** [flush]: the new client, and the batch taken out of the buffer, which
    is then marshalled and posted to [apiURL/v1/fingerprints] in one
    request. An error of [json.Marshal], [http.NewRequest] or the transport
    drops that batch; the client is not touched again. *)
Definition flush (tc : telemetryClient)
  : telemetryClient * option (list fingerprint) :=
  match buffer tc with
  | [] => (tc, None)
  | batch => (setBuffer tc [], Some batch)
  end.

(** The client together with the goroutines [push] has started and not yet
    run, and the batches sent so far, oldest first. *)
Record telemetryWorld := {
  client : telemetryClient;
  spawned : nat;
  sent : list (list fingerprint)
}.

Definition pushW (w : telemetryWorld) (fp : fingerprint) : telemetryWorld :=
  let '(tc, shouldFlush) := push (client w) fp in
  {| client := tc;
     spawned := if shouldFlush then S (spawned w) else spawned w;
     sent := sent w |}.

Definition flushW (w : telemetryWorld) : telemetryWorld :=
  let '(tc, out) := flush (client w) in
  {| client := tc;
     spawned := spawned w;
     sent := match out with Some batch => sent w ++ [batch] | None => sent w end |}.

(** One of the started goroutines runs its [tc.flush()]. *)
Definition runSpawned (w : telemetryWorld) : telemetryWorld :=
  match spawned w with
  | O => w
  | S n =>
      flushW {| client := client w; spawned := n; sent := sent w |}
  end.

Definition startWorld (tc : telemetryClient) : telemetryWorld :=
  {| client := tc; spawned := 0; sent := [] |}.

(** The loop of [buildFingerprint] over the entries of [r.Header] in the
    order [range] yields them, which Go leaves unspecified. *)
Definition headersOver (entries : list (string * list string))
  : gmap string string :=
  foldl (λ h kv, <[ToLower (fst kv) := Join (snd kv) ", "]> h) ∅ entries.

Definition orderOver (entries : list (string * list string)) : list string :=
  foldl (λ order kv, order ++ [ToLower (fst kv)]) [] entries.

Definition buildFingerprintOver (entries : list (string * list string))
    (r : Request) (now : Z) : option fingerprint :=
  let headers := headersOver entries in
  let order := sortStrings (orderOver entries) in
  match extractIP r with
  | None => None
  | Some ip =>
      Some {| IP := ip;
              UserAgent := HeaderGet (reqHeader r) "User-Agent";
              HeaderOrder := order;
              Headers := headers;
              Path := reqPath r;
              Method := reqMethod r;
              Ts := now |}
  end.

(** [buildFingerprint]; [None] is the panic of [extractIP]. *)
Definition buildFingerprint (r : Request) (now : Z) : option fingerprint :=
  buildFingerprintOver (map_to_list (reqHeader r)) r now.

(* ===================================================================== *)
(** ** engine.go *)
(* ===================================================================== *)

Record Decision := {
  Action : string;
  Reason : string;
  Confidence : float
}.

Definition normalizeHeaders (r : Request) : gmap string string :=
  headersOver (map_to_list (reqHeader r)).

Section engine.
Context {RE : Regexp}.

Record Bbloker := {
  rules : ruleManager;
  telemetry : telemetryClient;
  limiter : rateLimiter
}.

Definition setLimiter (b : Bbloker) (rl : rateLimiter) : Bbloker :=
  {| rules := rules b; telemetry := telemetry b; limiter := rl |}.

(** [Analyze] at clock reading [now]: the decision and the instance after
    it, or [None] when the call panics. *)
Definition Analyze (b : Bbloker) (now : Z) (r : Request)
  : option (Decision * Bbloker) :=
  match extractIP r with
  | None => None
  | Some ip =>
      let ua := HeaderGet (reqHeader r) "User-Agent" in
      let headers := normalizeHeaders r in
      if isBlockedUA (rules b) ua then
        Some ({| Action := "block"; Reason := "known_bot_ua";
                 Confidence := 0.95 |}, b)
      else if isBlockedIP (rules b) ip then
        Some ({| Action := "block"; Reason := "known_bot_ip";
                 Confidence := 0.90 |}, b)
      else
        let '(exceeded, rl) := isExceeded (limiter b) now ip in
        let b1 := setLimiter b rl in
        if exceeded then
          Some ({| Action := "block"; Reason := "rate_limit";
                   Confidence := 0.70 |}, b1)
        else
          match headerAnomalyScore (rules b) headers with
          | None => None
          | Some score =>
              if (anomalyThreshold (rules b) <? score)%float then
                Some ({| Action := "block"; Reason := "header_anomaly";
                         Confidence := score |}, b1)
              else
                Some ({| Action := "allow"; Reason := EmptyString;
                         Confidence := 0 |}, b1)
          end
  end.

(** [New] with the rate limit and the buffer size already defaulted, and
    without the goroutines. *)
Definition newBbloker (url key : string) (bufferSize : Z) (tel : bool)
    (rateLimit windowDurMs : Z) : Bbloker :=
  {| rules := newRuleManager url key;
     telemetry := newTelemetryClient url key bufferSize tel;
     limiter := newRateLimiter rateLimit windowDurMs |}.

End engine.

(** A regexp engine that knows the three default patterns only: what Go's
    engine does on them, and an error on every other pattern. It is used to
    run the definitions above on examples. *)
Definition defaultPatternsEngine : Regexp :=
  {| Regex := string;
     Compile := λ p,
       if String.eqb p "^\*\/\*$" then Some "*/*"
       else if String.eqb p "^$" then Some EmptyString
       else None;
     MatchString := λ rx s, String.eqb rx s |}.

(* ===================================================================== *)
(** ** Definitions the statements use: addresses and windows *)
(* ===================================================================== *)

Definition digitChar (d : Z) : ascii := ascii_of_nat (Z.to_nat (48 + d)).

(** The decimal numeral of [n], for [0 <= n < 1000]. *)
Definition decimal (n : Z) : string :=
  if n <? 10 then String (digitChar n) EmptyString
  else if n <? 100 then
    String (digitChar (n / 10)) (String (digitChar (n mod 10)) EmptyString)
  else
    String (digitChar (n / 100))
      (String (digitChar (n / 10 mod 10))
         (String (digitChar (n mod 10)) EmptyString)).

(** The dotted quad [a.b.c.d] and the 32-bit integer it denotes. *)
Definition quad (a b c d : Z) : string :=
  decimal a +:+ String "." (decimal b +:+ String "." (decimal c +:+ String "." (decimal d))).

Definition ip4 (a b c d : Z) : Z := a * 2 ^ 24 + b * 2 ^ 16 + c * 2 ^ 8 + d.

Definition octet (n : Z) : Prop := 0 <= n <= 255.

(** The top [n] bits of a 32-bit integer. *)
Definition topBits (n x : Z) : Z := Z.shiftr x (32 - n).

(** An address operand that [ipToUint32] turns down: fewer than four
    fields, or a field whose number is negative or above 255. *)
Definition badField (p : string) : Prop :=
  Sscanf_d p 0 < 0 ∨ 255 < Sscanf_d p 0.

Definition rejectedIPv4 (s : string) : Prop :=
  length (SplitN "." 4 s) ≠ 4%nat ∨ Exists badField (SplitN "." 4 s).


(** The first call for a key, or a call at or after [resetAt]. *)
Definition opensWindow (rl : rateLimiter) (ip : string) (now : Z) : Prop :=
  match windows rl !! ip with
  | Some w => resetAt w <= now
  | None => True
  end.

(* ===================================================================== *)
(** ** Specification-side definitions for the rule manager *)
(* ===================================================================== *)

(** [sub] occurs in [s]. *)
Definition substring (sub s : string) : Prop :=
  ∃ pre post, s = pre +:+ sub +:+ post.

Section scoreOf.
Context {RE : Regexp}.

(** The sum, from [score] on, of the weights of the patterns that compile
    and match the value of their header (the empty string when the header
    is missing); a pattern that does not compile is passed over. *)
Fixpoint scoreOf (headers : gmap string string) (hps : list HeaderPattern)
    (score : float) : float :=
  match hps with
  | [] => score
  | hp :: rest =>
      match Compile (Pattern hp) with
      | None => scoreOf headers rest score
      | Some rx =>
          if MatchString rx (default EmptyString (headers !! Name hp))
          then scoreOf headers rest (score + Weight hp)%float
          else scoreOf headers rest score
      end
  end.

Definition withHeaderPatterns (rs : RuleSet) (hps : list HeaderPattern)
  : RuleSet :=
  {| Version := Version rs; UpdatedAt := UpdatedAt rs;
     BlockedUAs := BlockedUAs rs; BlockedIPs := BlockedIPs rs;
     HeaderPatterns := hps; AnomalyThreshold := AnomalyThreshold rs |}.
End scoreOf.

(* ===================================================================== *)
(** ** Example data *)
(* ===================================================================== *)

(** What [curl] sends: a user agent and [Accept: */*], in that order. *)
Definition curlRequest : RawRequest :=
  {| rawMethod := "GET";
     rawPath := "/";
     rawFields := [("User-Agent", "curl/8.5.0"); ("Accept", "*/*")];
     rawRemoteAddr := "203.0.113.7:51000" |}.

(** A request whose forwarded-for field starts with ["]:"]. *)
Definition bracketRequest : RawRequest :=
  {| rawMethod := "GET";
     rawPath := "/";
     rawFields := [("X-Forwarded-For", "]:80")];
     rawRemoteAddr := "203.0.113.7:51000" |}.

Definition fpA : fingerprint :=
  {| IP := "203.0.113.7"; UserAgent := "curl/8.5.0"; HeaderOrder := ["accept"];
     Headers := {["accept" := "*/*"]}; Path := "/a"; Method := "GET";
     Ts := 1000 |}.

Definition fpB : fingerprint :=
  {| IP := "203.0.113.7"; UserAgent := "curl/8.5.0"; HeaderOrder := ["accept"];
     Headers := {["accept" := "*/*"]}; Path := "/b"; Method := "GET";
     Ts := 1001 |}.

(** A rule set of version 2, with one pattern that does not compile. *)
Definition rulesV2 : RuleSet :=
  {| Version := 2;
     UpdatedAt := "2026-03-01";
     BlockedUAs := ["BadBot"];
     BlockedIPs := ["10.0.0.0/8"];
     HeaderPatterns :=
       [ {| Name := "accept-language"; Pattern := "^$"; Weight := 0.5 |};
         {| Name := "accept"; Pattern := "("; Weight := 0.9 |} ];
     AnomalyThreshold := 0.7 |}.

(** A rule set whose list of blocked user agents holds the empty string. *)
Definition rulesEmptyUA : RuleSet :=
  {| Version := 3;
     UpdatedAt := "2026-03-02";
     BlockedUAs := ["GPTBot"; EmptyString];
     BlockedIPs := [];
     HeaderPatterns := [];
     AnomalyThreshold := 0.7 |}.

(* ===================================================================== *)
(** ** bbloker.go and middleware.go *)
(* ===================================================================== *)

(** [time.Duration] is a count of nanoseconds in an [int64];
    [d.Milliseconds()] is [int64(d) / 1e6], which rounds toward zero. *)
Definition Milliseconds (d : Z) : Z := Z.quot d 1000000.

Definition Second : Z := 1000000000.
Definition Minute : Z := 60 * Second.

Section middleware.
Context {RE : Regexp} {Response : Type}.

(** [Config]. [Telemetry] is a [*bool]; [OnBlock], a function that writes
    the response of a blocked request, is given by what it writes. *)
Record Config := {
  APIKey : string;
  APIURL : string;
  SyncInterval : Z;
  FlushInterval : Z;
  BufferSize : Z;
  Telemetry : option bool;
  RateLimit : Z;
  RateLimitWindow : Z;
  OnBlock : option (Request → Decision → Response)
}.

(** The defaulting at the head of [New], one test after the other. *)
Definition withDefaults (cfg : Config) : Config :=
  {| APIKey := APIKey cfg;
     APIURL :=
       if String.eqb (APIURL cfg) EmptyString then "https://bbloker.com"
       else APIURL cfg;
     SyncInterval :=
       if SyncInterval cfg =? 0 then 5 * Minute else SyncInterval cfg;
     FlushInterval :=
       if FlushInterval cfg =? 0 then 10 * Second else FlushInterval cfg;
     BufferSize := if BufferSize cfg =? 0 then 100 else BufferSize cfg;
     Telemetry :=
       match Telemetry cfg with
       | None => Some true
       | Some t => Some t
       end;
     RateLimit := if RateLimit cfg =? 0 then 60 else RateLimit cfg;
     RateLimitWindow :=
       if RateLimitWindow cfg =? 0 then 60 * Second else RateLimitWindow cfg;
     OnBlock := OnBlock cfg |}.

(** [New], without the goroutines: the configuration the instance keeps
    and its three components. [newRateLimiter] is given the window in
    milliseconds, the conversion it starts with. *)
Definition New (cfg : Config) : Config * Bbloker :=
  let cfg := withDefaults cfg in
  (cfg,
   {| rules := newRuleManager (APIURL cfg) (APIKey cfg);
      telemetry :=
        newTelemetryClient (APIURL cfg) (APIKey cfg) (BufferSize cfg)
          (default true (Telemetry cfg));
      limiter :=
        newRateLimiter (RateLimit cfg) (Milliseconds (RateLimitWindow cfg)) |}).

(** [Close], after the shutdown signal: the final flush and its batch. *)
Definition Close (b : Bbloker) : Bbloker * option (list fingerprint) :=
  let '(tc, out) := flush (telemetry b) in
  ({| rules := rules b; telemetry := tc; limiter := limiter b |}, out).

(** What the middleware does with the request once it is analysed. *)
Inductive outcome :=
  | Served
  | Forbidden
  | Custom (resp : Response).

(** The handler [Handler] returns, on one request: the outcome, the
    fingerprint handed to [go b.telemetry.push(fp)], and the instance after
    [Analyze]. [now] and [nowFp] are the clock readings of [isExceeded] and
    of [buildFingerprint]; [None] is a panic. *)
Definition Handler (cfg : Config) (b : Bbloker) (now nowFp : Z) (r : Request)
  : option (outcome * fingerprint * Bbloker) :=
  match Analyze b now r with
  | None => None
  | Some (decision, b1) =>
      match buildFingerprint r nowFp with
      | None => None
      | Some fp =>
          if String.eqb (Action decision) "block" then
            match OnBlock cfg with
            | Some onBlock => Some (Custom (onBlock r decision), fp, b1)
            | None => Some (Forbidden, fp, b1)
            end
          else Some (Served, fp, b1)
      end
  end.

End middleware.

(* ===================================================================== *)
(** ** Definitions the further statements use *)
(* ===================================================================== *)

(** What can happen to a telemetry client: a push, a call of [flush] (the
    ticker's or the owner's), or one of the flushes that a push started
    getting to run. *)
Inductive telemetryEvent :=
  | EvPush (fp : fingerprint)
  | EvFlush
  | EvRunSpawned.

Definition stepW (w : telemetryWorld) (e : telemetryEvent) : telemetryWorld :=
  match e with
  | EvPush fp => pushW w fp
  | EvFlush => flushW w
  | EvRunSpawned => runSpawned w
  end.

Fixpoint pushedBy (events : list telemetryEvent) : list fingerprint :=
  match events with
  | [] => []
  | EvPush fp :: rest => fp :: pushedBy rest
  | _ :: rest => pushedBy rest
  end.

(** The largest version among the rule sets fetched, and [v] itself. *)
Fixpoint maxVersion (v : Z) (fetches : list (option RuleSet)) : Z :=
  match fetches with
  | [] => v
  | Some rs :: rest => maxVersion (Z.max v (Version rs)) rest
  | None :: rest => maxVersion v rest
  end.

(** An entry of the block list with no slash in it. *)
Definition plainEntry (cidr : string) : Prop := Cut "/" cidr = None.


(** Clock readings that do not go back, from [t] on. *)
Fixpoint nondecreasing (t : Z) (times : list Z) : Prop :=
  match times with
  | [] => True
  | t1 :: rest => t <= t1 ∧ nondecreasing t1 rest
  end.

(** The clock readings at which [now + windowMs] does not leave [int64]. *)
Definition windowFits (rl : rateLimiter) (t : Z) : Prop :=
  minInt64 <= t + windowMs rl <= maxInt64.

Section cachesFresh.
Context {RE : Regexp}.

(** The two caches of the manager agree with its current rule set. *)
Definition cachesFresh (rm : ruleManager) : Prop :=
  uaLower rm = map ToLower (BlockedUAs (current rm))
  ∧ headerRe rm = map (λ hp, Compile (Pattern hp)) (HeaderPatterns (current rm)).

End cachesFresh.

(* ===================================================================== *)
(** ** Facts on ip.go *)
(* ===================================================================== *)

Lemma octet_forallb (P : Z → bool) :
  forallb P (map Z.of_nat (seq 0 256)) = true →
  ∀ n, octet n → P n = true.
Proof.
  intros Hall n [Hlo Hhi].
  rewrite forallb_forall in Hall. apply Hall.
  replace n with (Z.of_nat (Z.to_nat n)) by lia.
  apply in_map, in_seq. lia.
Qed.

Lemma scanInt_decimal n : octet n → scanInt (decimal n) = Some n.
Proof.
  intros Hn.
  pose (P := λ k, match scanInt (decimal k) with
                  | Some m => m =? k
                  | None => false
                  end).
  assert (HP : P n = true) by (apply octet_forallb; [vm_compute; reflexivity | exact Hn]).
  unfold P in HP. destruct (scanInt (decimal n)) as [m|]; [|discriminate].
  apply Z.eqb_eq in HP. by subst.
Qed.

Lemma Sscanf_d_decimal n v : octet n → Sscanf_d (decimal n) v = n.
Proof. intros Hn. unfold Sscanf_d. by rewrite scanInt_decimal. Qed.

Lemma decimal_no_dot n : octet n → Cut "." (decimal n) = None.
Proof.
  intros Hn.
  pose (P := λ k, match Cut "." (decimal k) with Some _ => false | None => true end).
  assert (HP : P n = true) by (apply octet_forallb; [vm_compute; reflexivity | exact Hn]).
  unfold P in HP. by destruct (Cut "." (decimal n)).
Qed.

Lemma decimal_no_slash n : octet n → Cut "/" (decimal n) = None.
Proof.
  intros Hn.
  pose (P := λ k, match Cut "/" (decimal k) with Some _ => false | None => true end).
  assert (HP : P n = true) by (apply octet_forallb; [vm_compute; reflexivity | exact Hn]).
  unfold P in HP. by destruct (Cut "/" (decimal n)).
Qed.

Lemma Cut_app_sep sep s t :
  Cut sep s = None → Cut sep (s +:+ String sep t) = Some (s, t).
Proof.
  induction s as [|c s IH]; simpl.
  - intros _. by rewrite Ascii.eqb_refl.
  - destruct (Ascii.eqb c sep); [discriminate|].
    destruct (Cut sep s) as [[u v]|]; [discriminate|].
    intros _. by rewrite IH.
Qed.

Lemma Cut_app_none sep s t :
  Cut sep s = None → Cut sep t = None → Cut sep (s +:+ t) = None.
Proof.
  induction s as [|c s IH]; simpl; [done|].
  destruct (Ascii.eqb c sep); [discriminate|].
  destruct (Cut sep s) as [[u v]|]; [discriminate|].
  intros _ Ht. by rewrite IH.
Qed.

Lemma Cut_cons_none sep c t :
  Ascii.eqb c sep = false → Cut sep t = None → Cut sep (String c t) = None.
Proof. intros Hc Ht. simpl. by rewrite Hc, Ht. Qed.

Lemma SplitN_quad a b c d :
  octet a → octet b → octet c → octet d →
  SplitN "." 4 (quad a b c d) = [decimal a; decimal b; decimal c; decimal d].
Proof.
  intros Ha Hb Hc Hd. unfold quad.
  cbn [SplitN].
  rewrite (Cut_app_sep "." (decimal a)) by by apply decimal_no_dot.
  rewrite (Cut_app_sep "." (decimal b)) by by apply decimal_no_dot.
  rewrite (Cut_app_sep "." (decimal c)) by by apply decimal_no_dot.
  reflexivity.
Qed.

Lemma quad_no_slash a b c d :
  octet a → octet b → octet c → octet d → Cut "/" (quad a b c d) = None.
Proof.
  intros Ha Hb Hc Hd. unfold quad.
  repeat (first [ apply Cut_app_none | apply Cut_cons_none
                | by apply decimal_no_slash | reflexivity ]).
Qed.

Lemma land_shifted_octet x o : octet o → Z.land (x * 2 ^ 8) o = 0.
Proof.
  intros [Hlo Hhi]. apply Z.bits_inj'; intros i Hi.
  rewrite Z.land_spec, Z.bits_0.
  destruct (Z.lt_ge_cases i 8) as [Hlt|Hge].
  - rewrite Z.mul_pow2_bits_low by lia. reflexivity.
  - destruct (Z.eq_dec o 0) as [->|Hne].
    + rewrite Z.bits_0. apply andb_false_r.
    + rewrite (Z.bits_above_log2 o i); [apply andb_false_r | lia | ].
      apply Z.lt_le_trans with 8; [|lia]. apply Z.log2_lt_pow2; lia.
Qed.

Lemma lor_shiftl_octet x o :
  octet o → Z.lor (Z.shiftl x 8) o = x * 2 ^ 8 + o.
Proof.
  intros Ho. rewrite Z.shiftl_mul_pow2 by lia.
  rewrite <- Z.lxor_lor by (by apply land_shifted_octet).
  symmetry. by apply Z.add_nocarry_lxor, land_shifted_octet.
Qed.

Lemma ipToUint32_quad a b c d :
  octet a → octet b → octet c → octet d →
  ipToUint32 (quad a b c d) = ip4 a b c d.
Proof.
  intros Ha Hb Hc Hd. unfold ipToUint32.
  rewrite SplitN_quad by done. cbn [length Nat.eqb negb ipLoop].
  rewrite !Sscanf_d_decimal by done.
  unfold octet in *.
  repeat match goal with
  | |- context [(?x <? 0) || (255 <? ?x)] =>
      replace ((x <? 0) || (255 <? x)) with false
        by (symmetry; apply orb_false_intro; [apply Z.ltb_ge|apply Z.ltb_ge]; lia)
  end.
  unfold ip4, wrap32.
  rewrite (Z.mod_small a), (Z.mod_small b), (Z.mod_small c), (Z.mod_small d) by lia.
  change (Z.shiftl 0 8) with 0. rewrite Z.lor_0_l.
  rewrite (Z.mod_small a) by lia.
  rewrite (lor_shiftl_octet a b) by (unfold octet; lia).
  rewrite (Z.mod_small (a * 2 ^ 8 + b)) by lia.
  rewrite (lor_shiftl_octet _ c) by (unfold octet; lia).
  rewrite (Z.mod_small (_ + c)) by lia.
  rewrite (lor_shiftl_octet _ d) by (unfold octet; lia).
  rewrite Z.mod_small by lia. lia.
Qed.

Lemma ipLoop_range ps r :
  0 <= r < 2 ^ 32 → 0 <= ipLoop ps r < 2 ^ 32.
Proof.
  revert r. induction ps as [|p ps IH]; intros r Hr; simpl; [done|].
  destruct ((Sscanf_d p 0 <? 0) || (255 <? Sscanf_d p 0)); [lia|].
  apply IH. unfold wrap32. apply Z.mod_pos_bound. lia.
Qed.

Lemma ipToUint32_range s : 0 <= ipToUint32 s < 2 ^ 32.
Proof.
  unfold ipToUint32.
  destruct (negb _); [lia|]. apply ipLoop_range. lia.
Qed.

Lemma ipLoop_badField ps r : Exists badField ps → ipLoop ps r = 0.
Proof.
  revert r. induction ps as [|p ps IH]; intros r Hex; simpl.
  - inversion Hex.
  - destruct ((Sscanf_d p 0 <? 0) || (255 <? Sscanf_d p 0)) eqn:Hc; [done|].
    apply orb_false_elim in Hc as [H1 H2].
    apply Z.ltb_ge in H1. apply Z.ltb_ge in H2.
    inversion Hex as [? ? Hbad|? ? Hrest]; subst.
    + unfold badField in Hbad. lia.
    + by apply IH.
Qed.

Lemma ipToUint32_rejected s : rejectedIPv4 s → ipToUint32 s = 0.
Proof.
  intros [Hlen|Hbad]; unfold ipToUint32.
  - destruct (length (SplitN "." 4 s) =? 4)%nat eqn:He; [|done].
    apply Nat.eqb_eq in He. done.
  - destruct (negb _); [done|]. by apply ipLoop_badField.
Qed.

(** The bits of the mask [0xFFFFFFFF << k] of a [uint32]. *)
Lemma mask_testbit k i :
  0 <= k <= 32 → 0 <= i →
  Z.testbit (wrap32 (Z.shiftl 4294967295 k)) i = (k <=? i) && (i <? 32).
Proof.
  intros Hk Hi. unfold wrap32.
  destruct (Z.ltb_spec i 32) as [Hlt|Hge].
  - rewrite Z.mod_pow2_bits_low by lia.
    rewrite Z.shiftl_spec by lia.
    change 4294967295 with (Z.ones 32).
    destruct (Z.leb_spec k i) as [Hle|Hgt].
    + rewrite Z.ones_spec_low by lia. done.
    + rewrite Z.testbit_neg_r by lia. done.
  - rewrite Z.mod_pow2_bits_high by lia. by rewrite andb_false_r.
Qed.

Lemma uint32_high_bits x i : 0 <= x < 2 ^ 32 → 32 <= i → Z.testbit x i = false.
Proof.
  intros Hx Hi. destruct (Z.eq_dec x 0) as [->|Hne]; [apply Z.bits_0|].
  apply Z.bits_above_log2; [lia|].
  apply Z.lt_le_trans with 32; [|lia]. apply Z.log2_lt_pow2; lia.
Qed.

Lemma masked_eq_topBits x y n :
  0 <= x < 2 ^ 32 → 0 <= y < 2 ^ 32 → 0 <= n <= 32 →
  Z.land x (wrap32 (Z.shiftl 4294967295 (32 - n)))
    = Z.land y (wrap32 (Z.shiftl 4294967295 (32 - n)))
  ↔ topBits n x = topBits n y.
Proof.
  intros Hx Hy Hn. unfold topBits. set (k := 32 - n). assert (Hk : 0 <= k <= 32) by lia.
  clearbody k. split; intros Heq; apply Z.bits_inj'; intros i Hi.
  - rewrite !Z.shiftr_spec by lia.
    destruct (Z.lt_ge_cases (i + k) 32) as [Hlt|Hge].
    + apply (f_equal (λ z, Z.testbit z (i + k))) in Heq.
      rewrite !Z.land_spec, mask_testbit in Heq by lia.
      replace ((k <=? i + k) && (i + k <? 32)) with true in Heq
        by (symmetry; apply andb_true_intro; split; [apply Z.leb_le|apply Z.ltb_lt]; lia).
      by rewrite !andb_true_r in Heq.
    + by rewrite !uint32_high_bits by lia.
  - rewrite !Z.land_spec, mask_testbit by lia.
    destruct (Z.leb_spec k i) as [Hle|Hgt]; [|by rewrite !andb_false_r].
    apply (f_equal (λ z, Z.testbit z (i - k))) in Heq.
    rewrite !Z.shiftr_spec in Heq by lia.
    replace (i - k + k) with i in Heq by lia. by rewrite Heq.
Qed.

Lemma SplitN_slash base pre :
  Cut "/" base = None → SplitN "/" 2 (base +:+ String "/" pre) = [base; pre].
Proof. intros Hb. cbn [SplitN]. by rewrite Cut_app_sep. Qed.

Lemma cidrContains_rejected base pre ip :
  Cut "/" base = None →
  rejectedIPv4 base ∨ rejectedIPv4 ip →
  cidrContains (base +:+ String "/" pre) ip = false.
Proof.
  intros Hb Hrej. unfold cidrContains. rewrite SplitN_slash by done.
  destruct Hrej as [H|H]; rewrite (ipToUint32_rejected _ H).
  - done.
  - by rewrite orb_true_r.
Qed.

(** A prefix length that scans to a number outside [0..32] never matches. *)
Lemma cidrContains_prefix_out_of_range base pre ip :
  Cut "/" base = None →
  Sscanf_d pre 0 < 0 ∨ 32 < Sscanf_d pre 0 →
  cidrContains (base +:+ String "/" pre) ip = false.
Proof.
  intros Hb Hpre. unfold cidrContains. rewrite SplitN_slash by done.
  destruct (_ || _); [done|].
  replace ((Sscanf_d pre 0 <? 0) || (32 <? Sscanf_d pre 0)) with true; [done|].
  symmetry. apply orb_true_iff. destruct Hpre; [left; apply Z.ltb_lt|right; apply Z.ltb_lt]; lia.
Qed.

(** An entry without a slash matches the client address as a string. *)
Lemma cidrContains_no_slash cidr ip :
  Cut "/" cidr = None → cidrContains cidr ip = true ↔ cidr = ip.
Proof.
  intros Hc. unfold cidrContains. cbn [SplitN]. rewrite Hc.
  apply String.eqb_eq.
Qed.

Lemma cidrContains_quads a b c d n e f g h :
  octet a → octet b → octet c → octet d → 0 <= n <= 32 →
  octet e → octet f → octet g → octet h →
  cidrContains (quad a b c d +:+ String "/" (decimal n)) (quad e f g h) = true
  ↔ ip4 a b c d ≠ 0 ∧ ip4 e f g h ≠ 0
    ∧ topBits n (ip4 a b c d) = topBits n (ip4 e f g h).
Proof.
  intros Ha Hb Hc Hd Hn He Hf Hg Hh.
  unfold cidrContains.
  rewrite SplitN_slash by (by apply quad_no_slash).
  rewrite !ipToUint32_quad by done.
  rewrite Sscanf_d_decimal by (unfold octet; lia).
  replace ((n <? 0) || (32 <? n)) with false
    by (symmetry; apply orb_false_intro; apply Z.ltb_ge; lia).
  assert (Hr1 : 0 <= ip4 a b c d < 2 ^ 32) by (unfold ip4, octet in *; lia).
  assert (Hr2 : 0 <= ip4 e f g h < 2 ^ 32) by (unfold ip4, octet in *; lia).
  destruct (Z.eqb_spec (ip4 a b c d) 0) as [H0|H0]; simpl.
  { split; [discriminate|]. intros (? & _); done. }
  destruct (Z.eqb_spec (ip4 e f g h) 0) as [H1|H1]; simpl.
  { split; [discriminate|]. intros (_ & ? & _); done. }
  rewrite Z.eqb_eq, masked_eq_topBits by done.
  split; [intros; done | by intros (_ & _ & ?)].
Qed.

(** C1 (as amended). For dotted quads [a.b.c.d] and [e.f.g.h] of decimal
    octets in 0..255 and a decimal prefix length [n] in 0..32,
    [cidrContains "a.b.c.d/n" "e.f.g.h"] is true exactly when neither
    address is 0.0.0.0 and the top [n] bits of the two 32-bit integers
    agree; and [cidrContains] is false whenever the base address or the
    client address has fewer than four dot-separated fields or a field
    whose number is negative or above 255. *)
Theorem cidrContains_top_bits :
  (∀ a b c d n e f g h,
      octet a → octet b → octet c → octet d → 0 <= n <= 32 →
      octet e → octet f → octet g → octet h →
      (cidrContains (quad a b c d +:+ String "/" (decimal n)) (quad e f g h) = true
       ↔ ip4 a b c d ≠ 0 ∧ ip4 e f g h ≠ 0
         ∧ topBits n (ip4 a b c d) = topBits n (ip4 e f g h)))
  ∧ (∀ base pre ip,
      Cut "/" base = None →
      rejectedIPv4 base ∨ rejectedIPv4 ip →
      cidrContains (base +:+ String "/" pre) ip = false).
Proof.
  split.
  - intros. by apply cidrContains_quads.
  - intros. by apply cidrContains_rejected.
Qed.

(** The default entry 20.15.240.0/20 and the client 20.15.240.5. *)
Lemma cidrContains_top_bits_witness :
  (octet 20 ∧ octet 15 ∧ octet 240 ∧ octet 0 ∧ 0 <= 20 <= 32 ∧ octet 5)
  ∧ (cidrContains "20.15.240.0/20" "20.15.240.5" = true
     ↔ ip4 20 15 240 0 ≠ 0 ∧ ip4 20 15 240 5 ≠ 0
       ∧ topBits 20 (ip4 20 15 240 0) = topBits 20 (ip4 20 15 240 5))
  ∧ (Cut "/" "1.2.3" = None ∧ rejectedIPv4 "1.2.3"
     ∧ cidrContains "1.2.3/8" "1.2.3.4" = false).
Proof.
  assert (H20 : octet 20) by (unfold octet; lia).
  assert (H15 : octet 15) by (unfold octet; lia).
  assert (H240 : octet 240) by (unfold octet; lia).
  assert (H0 : octet 0) by (unfold octet; lia).
  assert (H5 : octet 5) by (unfold octet; lia).
  assert (Hn : 0 <= 20 <= 32) by lia.
  assert (Hrej : rejectedIPv4 "1.2.3") by (left; vm_compute; discriminate).
  split; [done|]. split.
  - exact (proj1 cidrContains_top_bits 20 15 240 0 20 20 15 240 5
             H20 H15 H240 H0 Hn H20 H15 H240 H5).
  - split; [reflexivity|]. split; [exact Hrej|].
    exact (proj2 cidrContains_top_bits "1.2.3" "8" "1.2.3.4" eq_refl (or_introl Hrej)).
Defined.

(** C1 as stated fails at 0.0.0.0/0: the top 0 bits of any two addresses
    agree, and the entry matches no address. *)
Lemma cidrContains_zero_address_counterexample :
  "0.0.0.0/0" = quad 0 0 0 0 +:+ String "/" (decimal 0)
  ∧ "1.2.3.4" = quad 1 2 3 4
  ∧ ¬ (cidrContains "0.0.0.0/0" "1.2.3.4" = true
       ↔ topBits 0 (ip4 0 0 0 0) = topBits 0 (ip4 1 2 3 4)).
Proof.
  split; [reflexivity|]. split; [reflexivity|].
  intros [_ H]. specialize (H eq_refl). vm_compute in H. discriminate.
Qed.

(** C3 fails on the code: the error of [Sscanf] is dropped, so a prefix
    that is not a number is read as 0 and a field that is not a number as
    octet 0. The entry 10.0.0.0/abc matches the client 8.8.8.8, and the
    entry 1.2.3.x/24 matches 1.2.3.9. *)
Theorem cidrContains_malformed_entry_matches :
  scanInt "abc" = None
  ∧ cidrContains "10.0.0.0/abc" "8.8.8.8" = true
  ∧ scanInt "x" = None
  ∧ cidrContains "1.2.3.x/24" "1.2.3.9" = true
  ∧ anyCidrContains ["10.0.0.0/abc"] "8.8.8.8" = true.
Proof. repeat split; vm_compute; reflexivity. Qed.

(* ===================================================================== *)
(** ** Facts on the rate limiter *)
(* ===================================================================== *)

Lemma wrap64_small z : minInt64 <= z <= maxInt64 → wrap64 z = z.
Proof.
  unfold minInt64, maxInt64, wrap64. intros Hz.
  rewrite Z.mod_small by lia. lia.
Qed.

Lemma isExceeded_opens rl now ip :
  opensWindow rl ip now →
  isExceeded rl now ip
  = (false, setWindows rl (<[ip := freshWindow rl now]> (windows rl))).
Proof.
  unfold opensWindow, isExceeded. destruct (windows rl !! ip) as [w|]; [|done].
  intros Hw. apply Z.leb_le in Hw. by rewrite Hw.
Qed.

Lemma isExceeded_within rl now ip w :
  windows rl !! ip = Some w → now < resetAt w →
  isExceeded rl now ip
  = (maxRequests rl <? wrap64 (count w + 1),
     setWindows rl
       (<[ip := {| count := wrap64 (count w + 1); resetAt := resetAt w |}]>
          (windows rl))).
Proof.
  intros Hw Hnow. unfold isExceeded. rewrite Hw.
  apply Z.leb_gt in Hnow. by rewrite Hnow.
Qed.

(** Calls inside the window that stay under the cap all report false and
    count up. *)
Lemma isExceededSeq_under_cap ip times :
  ∀ rl w,
    windows rl !! ip = Some w →
    Forall (λ t, t < resetAt w) times →
    0 <= count w →
    count w + Z.of_nat (length times) <= maxRequests rl →
    maxRequests rl <= maxInt64 →
    ∃ rl',
      isExceededSeq rl ip times = (replicate (length times) false, rl')
      ∧ windows rl' !! ip
        = Some {| count := count w + Z.of_nat (length times);
                  resetAt := resetAt w |}
      ∧ maxRequests rl' = maxRequests rl
      ∧ windowMs rl' = windowMs rl.
Proof.
  induction times as [|t times IH]; intros rl w Hw Hall Hc Hcap Hmax.
  - exists rl. simpl. rewrite Z.add_0_r. destruct w; simpl in *. done.
  - apply Forall_cons in Hall as [Ht Hall].
    cbn [isExceededSeq length] in *.
    rewrite (isExceeded_within rl t ip w) by done.
    assert (Hwrap : wrap64 (count w + 1) = count w + 1)
      by (apply wrap64_small; unfold minInt64, maxInt64 in *; lia).
    rewrite Hwrap.
    set (w1 := {| count := count w + 1; resetAt := resetAt w |}).
    set (rl1 := setWindows rl (<[ip := w1]> (windows rl))).
    destruct (IH rl1 w1) as (rl' & Hseq & Hlook & Hm & Hd).
    + subst rl1. simpl. apply lookup_insert_eq.
    + done.
    + simpl. lia.
    + simpl. lia.
    + done.
    + exists rl'. rewrite Hseq.
      replace (maxRequests rl <? count w + 1) with false
        by (symmetry; apply Z.ltb_ge; lia).
      split; [done|]. split; [|done].
      rewrite Hlook. simpl. do 2 f_equal. lia.
Qed.

(** C2. With a cap [maxRequests >= 1] (below the largest [int], so that the
    counter cannot wrap): the call that opens a window for [ip] and the
    calls after it inside that window, [maxRequests] calls in all, each
    return false; the next call inside the window returns true; and a call
    at or after [resetAt] returns false and leaves the window
    [{count: 1, resetAt: now + windowMs}]. *)
Theorem isExceeded_fixed_window rl ip t0 times tnext :
  1 <= maxRequests rl < maxInt64 →
  opensWindow rl ip t0 →
  Z.of_nat (length (t0 :: times)) = maxRequests rl →
  Forall (λ t, t < wrap64 (t0 + windowMs rl)) (times ++ [tnext]) →
  (∃ rl1,
      isExceededSeq rl ip (t0 :: times)
      = (replicate (length (t0 :: times)) false, rl1)
      ∧ fst (isExceeded rl1 tnext ip) = true)
  ∧ (∀ rl2 w now,
      windows rl2 !! ip = Some w → resetAt w <= now →
      fst (isExceeded rl2 now ip) = false
      ∧ windows (snd (isExceeded rl2 now ip)) !! ip
        = Some {| count := 1; resetAt := wrap64 (now + windowMs rl2) |}
      ∧ (minInt64 <= now + windowMs rl2 <= maxInt64 →
         wrap64 (now + windowMs rl2) = now + windowMs rl2)).
Proof.
  intros Hmax Hopen Hlen Hall. split.
  - apply Forall_app in Hall as [Hall Hnext].
    apply Forall_inv in Hnext.
    cbn [isExceededSeq].
    rewrite isExceeded_opens by done.
    set (rl0 := setWindows rl (<[ip := freshWindow rl t0]> (windows rl))).
    destruct (isExceededSeq_under_cap ip times rl0 (freshWindow rl t0))
      as (rl1 & Hseq & Hlook & Hm & Hd).
    + subst rl0. simpl. apply lookup_insert_eq.
    + done.
    + simpl. lia.
    + simpl in *. lia.
    + simpl. lia.
    + exists rl1. rewrite Hseq. split; [done|].
      rewrite (isExceeded_within rl1 tnext ip _ Hlook) by (simpl; exact Hnext).
      cbn [fst count freshWindow]. rewrite Hm. subst rl0. cbn [maxRequests setWindows].
      rewrite wrap64_small by (unfold minInt64, maxInt64 in *; simpl in *; lia).
      apply Z.ltb_lt. simpl in *. lia.
  - intros rl2 w now Hw Hnow.
    rewrite isExceeded_opens by (unfold opensWindow; by rewrite Hw).
    cbn [fst snd setWindows windows]. rewrite lookup_insert_eq.
    split; [done|]. split; [done|]. apply wrap64_small.
Qed.

(** Cap 3, window 1000 ms, an empty limiter: calls at 0, 10 and 20 pass,
    the call at 30 is over the cap. *)
Lemma isExceeded_fixed_window_witness :
  let rl := newRateLimiter 3 1000 in
  (∃ rl1,
      isExceededSeq rl "203.0.113.7" [0; 10; 20] = ([false; false; false], rl1)
      ∧ fst (isExceeded rl1 30 "203.0.113.7") = true)
  ∧ (∀ rl2 w now,
      windows rl2 !! "203.0.113.7" = Some w → resetAt w <= now →
      fst (isExceeded rl2 now "203.0.113.7") = false
      ∧ windows (snd (isExceeded rl2 now "203.0.113.7")) !! "203.0.113.7"
        = Some {| count := 1; resetAt := wrap64 (now + windowMs rl2) |}
      ∧ (minInt64 <= now + windowMs rl2 <= maxInt64 →
         wrap64 (now + windowMs rl2) = now + windowMs rl2)).
Proof.
  intros rl.
  apply (isExceeded_fixed_window rl "203.0.113.7" 0 [10; 20] 30).
  - unfold maxInt64. simpl. lia.
  - exact I.
  - reflexivity.
  - repeat constructor; vm_compute; reflexivity.
Defined.

(* ===================================================================== *)
(** ** Facts on the rule manager *)
(* ===================================================================== *)

Lemma HasPrefix_spec s p : HasPrefix s p = true ↔ ∃ post, s = p +:+ post.
Proof.
  revert s. induction p as [|b p IH]; intros s; simpl.
  - split; [intros _; by exists s | done].
  - destruct s as [|a s].
    + split; [done | intros [post H]; discriminate].
    + rewrite andb_true_iff, IH. split.
      * intros [Hab [post ->]]. apply Ascii.eqb_eq in Hab as ->. by exists post.
      * intros [post H]. injection H as -> ->. split; [apply Ascii.eqb_refl | by exists post].
Qed.

Lemma Contains_spec s sub : Contains s sub = true ↔ substring sub s.
Proof.
  unfold substring. induction s as [|a s IH].
  - simpl. rewrite orb_false_r, HasPrefix_spec. split.
    + intros [post H]. by exists EmptyString, post.
    + intros ([|c pre] & post & H); [by exists post | discriminate].
  - cbn [Contains]. rewrite orb_true_iff, HasPrefix_spec, IH. split.
    + intros [[post H]|(pre & post & H)].
      * by exists EmptyString, post.
      * exists (String a pre), post. simpl. by rewrite H.
    + intros ([|c pre] & post & H).
      * left. by exists post.
      * right. simpl in H. injection H as -> ->. by exists pre, post.
Qed.

Lemma anyContains_spec lower patterns :
  anyContains lower patterns = true ↔ ∃ p, p ∈ patterns ∧ substring p lower.
Proof.
  induction patterns as [|q patterns IH]; simpl.
  - split; [done | intros (p & Hp & _); by apply elem_of_nil in Hp].
  - destruct (Contains lower q) eqn:Hq.
    + split; [intros _ | done]. exists q. split; [left | by apply Contains_spec].
    + rewrite IH. split.
      * intros (p & Hp & Hs). exists p. split; [by right | done].
      * intros (p & Hp & Hs). apply elem_of_cons in Hp as [->|Hp].
        -- apply Contains_spec in Hs. congruence.
        -- by exists p.
Qed.

Section rules_facts.
Context {RE : Regexp}.

Lemma lowerLoop_spec uas : ∀ seen rest,
  length rest = length uas →
  lowerLoop (length seen) uas (seen ++ rest) = seen ++ map ToLower uas.
Proof.
  induction uas as [|ua uas IH]; intros seen rest Hlen; simpl.
  - destruct rest; [done | discriminate].
  - destruct rest as [|r rest]; [discriminate|]. simpl in Hlen.
    rewrite insert_app_r_alt, Nat.sub_diag by lia. simpl.
    specialize (IH (seen ++ [ToLower ua]) rest).
    rewrite length_app in IH. simpl in IH.
    rewrite Nat.add_1_r, <- !app_assoc in IH. simpl in IH. apply IH. lia.
Qed.

Lemma compileLoop_spec hps : ∀ seen rest,
  rest = replicate (length hps) None →
  compileLoop (length seen) hps (seen ++ rest)
  = seen ++ map (λ hp, Compile (Pattern hp)) hps.
Proof.
  induction hps as [|hp hps IH]; intros seen rest ->; simpl.
  - done.
  - specialize (IH (seen ++ [Compile (Pattern hp)]) (replicate (length hps) None) eq_refl).
    rewrite length_app in IH. simpl in IH.
    rewrite Nat.add_1_r, <- !app_assoc in IH. simpl in IH.
    destruct (Compile (Pattern hp)) as [rx|] eqn:Hc.
    + rewrite insert_app_r_alt, Nat.sub_diag by lia. simpl. apply IH.
    + apply IH.
Qed.

Lemma uaLower_applyRules rm rs :
  uaLower (applyRules rm rs) = map ToLower (BlockedUAs rs).
Proof.
  simpl. apply (lowerLoop_spec (BlockedUAs rs) []). apply length_replicate.
Qed.

Lemma headerRe_applyRules rm rs :
  headerRe (applyRules rm rs)
  = map (λ hp, Compile (Pattern hp)) (HeaderPatterns rs).
Proof. simpl. by apply (compileLoop_spec (HeaderPatterns rs) []). Qed.

Lemma scoreLoop_parallel headers hps : ∀ seen score,
  scoreLoop (map (λ hp, Compile (Pattern hp)) (seen ++ hps)) headers
    (length seen) hps score
  = Some (scoreOf headers hps score).
Proof.
  induction hps as [|hp hps IH]; intros seen score; simpl; [done|].
  rewrite list_lookup_fmap, lookup_app_r, Nat.sub_diag by lia. simpl.
  specialize (IH (seen ++ [hp])).
  rewrite length_app, <- app_assoc in IH. simpl in IH. rewrite Nat.add_1_r in IH.
  destruct (Compile (Pattern hp)) as [rx|]; [|apply IH].
  destruct (MatchString rx _); apply IH.
Qed.

Lemma headerAnomalyScore_applyRules rm rs headers :
  headerAnomalyScore (applyRules rm rs) headers
  = Some (scoreOf headers (HeaderPatterns rs) 0%float).
Proof.
  unfold headerAnomalyScore. rewrite headerRe_applyRules.
  apply (scoreLoop_parallel headers (HeaderPatterns rs) []).
Qed.

Lemma scoreOf_skip headers pre hp post : ∀ score,
  Compile (Pattern hp) = None →
  scoreOf headers (pre ++ hp :: post) score = scoreOf headers (pre ++ post) score.
Proof.
  induction pre as [|q pre IH]; intros score Hc; simpl.
  - by rewrite Hc.
  - destruct (Compile (Pattern q)) as [rx|]; [|by apply IH].
    destruct (MatchString rx _); by apply IH.
Qed.

Lemma syncOnce_version_le rm fetched :
  Version (current rm) <= Version (current (syncOnce rm fetched)).
Proof.
  destruct fetched as [rs|]; simpl; [|lia].
  destruct (Z.ltb_spec (Version (current rm)) (Version rs)); simpl; lia.
Qed.

Lemma syncOnce_fold_version_le fetches : ∀ rm,
  Version (current rm) <= Version (current (foldl syncOnce rm fetches)).
Proof.
  induction fetches as [|f fetches IH]; intros rm; simpl; [lia|].
  etrans; [apply (syncOnce_version_le rm f) | apply IH].
Qed.

End rules_facts.


(** C6. A fetched rule set whose version is not above the current one
    leaves the manager as it is; one whose version is above it becomes the
    current rule set, with both caches rebuilt from it; and over any
    sequence of syncs the current version never goes down. *)
Theorem syncOnce_version_gate {RE : Regexp} (rm : ruleManager) (rs : RuleSet)
    (fetches : list (option RuleSet)) :
  (Version rs <= Version (current rm) → syncOnce rm (Some rs) = rm)
  ∧ (Version (current rm) < Version rs →
     current (syncOnce rm (Some rs)) = rs
     ∧ uaLower (syncOnce rm (Some rs)) = map ToLower (BlockedUAs rs)
     ∧ headerRe (syncOnce rm (Some rs))
       = map (λ hp, Compile (Pattern hp)) (HeaderPatterns rs))
  ∧ (∀ more,
       Version (current (foldl syncOnce rm fetches))
       <= Version (current (foldl syncOnce rm (fetches ++ more)))).
Proof.
  split; [|split].
  - intros Hle. unfold syncOnce.
    by replace (Version (current rm) <? Version rs) with false
      by (symmetry; apply Z.ltb_ge; lia).
  - intros Hlt. unfold syncOnce.
    replace (Version (current rm) <? Version rs) with true
      by (symmetry; apply Z.ltb_lt; lia).
    split; [done|]. split; [apply uaLower_applyRules | apply headerRe_applyRules].
  - intros more. rewrite foldl_app. apply syncOnce_fold_version_le.
Qed.

(** C10. After [applyRules], [uaLower] holds the lower-cased form of the
    entry of [BlockedUAs] at every index and nothing more, [headerRe] holds
    at every index the result of compiling the pattern at that index (nil
    for a pattern that does not compile) and nothing more; the score loop
    never indexes [headerRe] out of range; and a pattern that does not
    compile adds nothing: the score is that of the rule set without it. *)
Theorem applyRules_parallel_caches {RE : Regexp} (rm : ruleManager)
    (rs : RuleSet) (headers : gmap string string) :
  length (uaLower (applyRules rm rs)) = length (BlockedUAs rs)
  ∧ (∀ i, uaLower (applyRules rm rs) !! i = ToLower <$> BlockedUAs rs !! i)
  ∧ length (headerRe (applyRules rm rs)) = length (HeaderPatterns rs)
  ∧ (∀ i, headerRe (applyRules rm rs) !! i
          = (λ hp, Compile (Pattern hp)) <$> HeaderPatterns rs !! i)
  ∧ is_Some (headerAnomalyScore (applyRules rm rs) headers)
  ∧ (∀ pre hp post,
       HeaderPatterns rs = pre ++ hp :: post →
       Compile (Pattern hp) = None →
       headerRe (applyRules rm rs) !! length pre = Some None
       ∧ headerAnomalyScore (applyRules rm rs) headers
         = headerAnomalyScore
             (applyRules rm (withHeaderPatterns rs (pre ++ post))) headers).
Proof.
  rewrite uaLower_applyRules, headerRe_applyRules.
  split; [apply length_map|].
  split; [intros i; apply list_lookup_fmap|].
  split; [apply length_map|].
  split; [intros i; apply list_lookup_fmap|].
  split; [rewrite headerAnomalyScore_applyRules; by eexists|].
  intros pre hp post Hsplit Hnil. split.
  - rewrite Hsplit, list_lookup_fmap, lookup_app_r, Nat.sub_diag by lia.
    simpl. by rewrite Hnil.
  - rewrite !headerAnomalyScore_applyRules. simpl. rewrite Hsplit.
    f_equal. by apply scoreOf_skip.
Qed.

Lemma syncOnce_version_gate_witness :
  let rm := @newRuleManager defaultPatternsEngine "https://bbloker.com" "bb-sk-1" in
  @syncOnce defaultPatternsEngine rm (Some defaultRules) = rm
  ∧ current (@syncOnce defaultPatternsEngine rm (Some rulesV2)) = rulesV2.
Proof.
  intros rm. split.
  - apply (proj1 (@syncOnce_version_gate defaultPatternsEngine rm defaultRules [])).
    simpl. lia.
  - apply (proj1 (proj2 (@syncOnce_version_gate defaultPatternsEngine rm rulesV2 []))).
    simpl. lia.
Defined.

Lemma applyRules_parallel_caches_witness :
  let rm := @newRuleManager defaultPatternsEngine "https://bbloker.com" "bb-sk-1" in
  headerRe (@applyRules defaultPatternsEngine rm rulesV2) !! 1%nat = Some None
  ∧ @headerAnomalyScore defaultPatternsEngine (applyRules rm rulesV2) ∅
    = @headerAnomalyScore defaultPatternsEngine
        (applyRules rm
           (withHeaderPatterns rulesV2
              [ {| Name := "accept-language"; Pattern := "^$"; Weight := 0.5 |} ]))
        ∅.
Proof.
  intros rm.
  apply (proj2 (proj2 (proj2 (proj2 (proj2
           (@applyRules_parallel_caches defaultPatternsEngine rm rulesV2 ∅)))))
           [ {| Name := "accept-language"; Pattern := "^$"; Weight := 0.5 |} ]
           {| Name := "accept"; Pattern := "("; Weight := 0.9 |} []).
  - reflexivity.
  - reflexivity.
Defined.

(* ===================================================================== *)
(** ** Facts on the telemetry client *)
(* ===================================================================== *)

Lemma push_enabled tc fp :
  enabled tc = true →
  push tc fp
  = (setBuffer tc (buffer tc ++ [fp]),
     maxBuffer tc <=? Z.of_nat (length (buffer tc ++ [fp]))).
Proof. intros He. unfold push. by rewrite He. Qed.

Lemma push_disabled tc fp : enabled tc = false → push tc fp = (tc, false).
Proof. intros He. unfold push. by rewrite He. Qed.

Lemma pushW_all fps : ∀ w,
  enabled (client w) = true →
  buffer (client (foldl pushW w fps)) = buffer (client w) ++ fps
  ∧ enabled (client (foldl pushW w fps)) = true
  ∧ sent (foldl pushW w fps) = sent w.
Proof.
  induction fps as [|fp fps IH]; intros w He; simpl.
  - by rewrite app_nil_r.
  - destruct (IH (pushW w fp)) as (Hb & Hen & Hs).
    + unfold pushW. by rewrite push_enabled.
    + rewrite Hb, Hen, Hs. unfold pushW. rewrite push_enabled by done. simpl.
      by rewrite <- app_assoc.
Qed.

Lemma flushW_nonempty w :
  buffer (client w) ≠ [] →
  sent (flushW w) = sent w ++ [buffer (client w)]
  ∧ buffer (client (flushW w)) = [].
Proof.
  intros Hne. unfold flushW, flush.
  destruct (buffer (client w)) as [|fp buf] eqn:Hb; [done|]. simpl. done.
Qed.

Lemma flushW_empty w :
  buffer (client w) = [] → flushW w = w.
Proof.
  intros Hb. unfold flushW, flush. rewrite Hb. by destruct w.
Qed.

Lemma runSpawned_step_empty w :
  buffer (client w) = [] →
  sent (runSpawned w) = sent w ∧ buffer (client (runSpawned w)) = [].
Proof.
  intros Hb. unfold runSpawned. destruct (spawned w) as [|n]; [done|].
  by rewrite flushW_empty.
Qed.

Lemma runSpawned_empty k : ∀ w,
  buffer (client w) = [] →
  sent (Nat.iter k runSpawned w) = sent w
  ∧ buffer (client (Nat.iter k runSpawned w)) = [].
Proof.
  induction k as [|k IH]; intros w Hb; simpl; [done|].
  destruct (IH w Hb) as [Hs Hbuf].
  destruct (runSpawned_step_empty _ Hbuf) as [Hs1 Hbuf1].
  by rewrite Hs1, Hs.
Qed.

(** C7 (as amended). With telemetry enabled, pushes followed by one flush,
    with none of the flushes that [push] started running in between: the
    flush takes one batch, the buffered fingerprints in push order, and
    leaves the buffer empty, and the started flushes that run afterwards
    send nothing; a flush of an empty buffer sends nothing and changes
    nothing; and the push that brings the buffer to [maxBuffer] entries or
    more starts a flush itself. *)
Theorem push_then_flush (tc : telemetryClient) (fps : list fingerprint)
    (fp : fingerprint) (k : nat) :
  enabled tc = true →
  let w := foldl pushW (startWorld tc) fps in
  (buffer tc ++ fps ≠ [] →
     sent (flushW w) = [buffer tc ++ fps]
     ∧ buffer (client (flushW w)) = []
     ∧ sent (Nat.iter k runSpawned (flushW w)) = [buffer tc ++ fps])
  ∧ (∀ tc0, buffer tc0 = [] → flush tc0 = (tc0, None))
  ∧ (maxBuffer tc <= Z.of_nat (length (buffer tc)) + 1 →
     snd (push tc fp) = true
     ∧ spawned (pushW (startWorld tc) fp) = 1%nat).
Proof.
  intros He w.
  destruct (pushW_all fps (startWorld tc) He) as (Hb & Hen & Hs).
  fold w in Hb, Hen, Hs. simpl in Hb, Hs.
  split; [|split].
  - intros Hne.
    destruct (flushW_nonempty w) as [Hsent Hbuf]; [by rewrite Hb|].
    rewrite Hs, Hb in Hsent. simpl in Hsent.
    split; [done|]. split; [done|].
    destruct (runSpawned_empty k (flushW w) Hbuf) as [Hk _]. by rewrite Hk.
  - intros tc0 Hb0. unfold flush. by rewrite Hb0.
  - intros Hmax.
    assert (Hp : snd (push tc fp) = true).
    { rewrite push_enabled by done. simpl. apply Z.leb_le.
      rewrite length_app. simpl. lia. }
    split; [done|].
    unfold pushW, startWorld. simpl. destruct (push tc fp) as [tc1 sf].
    simpl in Hp. by rewrite Hp.
Qed.

Lemma push_then_flush_witness :
  let tc := newTelemetryClient "https://bbloker.com" "bb-sk-1" 2 true in
  let w := foldl pushW (startWorld tc) [fpA; fpB] in
  (sent (flushW w) = [[fpA; fpB]]
   ∧ buffer (client (flushW w)) = []
   ∧ sent (Nat.iter 1 runSpawned (flushW w)) = [[fpA; fpB]])
  ∧ (snd (push (setBuffer tc [fpA]) fpB) = true
     ∧ spawned (pushW (startWorld (setBuffer tc [fpA])) fpB) = 1%nat).
Proof.
  intros tc w. split.
  - apply (proj1 (push_then_flush tc [fpA; fpB] fpA 1 eq_refl)). discriminate.
  - apply (proj2 (proj2 (push_then_flush (setBuffer tc [fpA]) [] fpB 0 eq_refl))).
    simpl. lia.
Defined.

(** C7 as stated fails when telemetry is off: [push] returns at once and
    the flush has nothing to send. It also fails, with telemetry on, when a
    flush that [push] started runs between two pushes: the fingerprints
    leave in two batches. *)
Lemma push_then_flush_counterexample :
  (let tc := newTelemetryClient "https://bbloker.com" "bb-sk-1" 100 false in
   sent (flushW (foldl pushW (startWorld tc) [fpA; fpB])) = []
   ∧ sent (flushW (foldl pushW (startWorld tc) [fpA; fpB])) ≠ [[fpA; fpB]])
  ∧ (let tc := newTelemetryClient "https://bbloker.com" "bb-sk-1" 1 true in
     sent (flushW (pushW (runSpawned (pushW (startWorld tc) fpA)) fpB))
     = [[fpA]; [fpB]]).
Proof.
  split.
  - simpl. split; [reflexivity | discriminate].
  - reflexivity.
Qed.

(* ===================================================================== *)
(** ** Facts on the fingerprint *)
(* ===================================================================== *)

Lemma strLe_trans a : ∀ b c, strLe a b → strLe b c → strLe a c.
Proof.
  unfold strLe, String.leb.
  induction a as [|x a IH]; intros [|y b] [|z c]; simpl; try done.
  unfold Ascii.compare.
  destruct (N.compare_spec (N_of_ascii x) (N_of_ascii y)) as [Hxy|Hxy|Hxy];
    try done;
    destruct (N.compare_spec (N_of_ascii y) (N_of_ascii z)) as [Hyz|Hyz|Hyz];
    try done;
    destruct (N.compare_spec (N_of_ascii x) (N_of_ascii z)) as [Hxz|Hxz|Hxz];
    try done; try lia.
  apply IH.
Qed.

#[local] Instance strLe_transitive : Transitive strLe.
Proof. intros a b c. apply strLe_trans. Qed.

#[local] Instance strLe_total : Total strLe.
Proof. intros a b. apply String.leb_total. Qed.

#[local] Instance strLe_antisymm : AntiSymm eq strLe.
Proof. intros a b. apply String.leb_antisym. Qed.

Lemma sortStrings_sorted l : StronglySorted strLe (sortStrings l).
Proof. apply StronglySorted_merge_sort; apply _. Qed.

Lemma sortStrings_perm l : sortStrings l ≡ₚ l.
Proof. apply merge_sort_Permutation. Qed.

(** The sorted list does not depend on the order of the input. *)
Lemma sortStrings_order_free l1 l2 : l1 ≡ₚ l2 → sortStrings l1 = sortStrings l2.
Proof.
  intros Hp. apply (StronglySorted_unique strLe); try apply sortStrings_sorted.
  by rewrite !sortStrings_perm.
Qed.

Lemma orderOver_from acc entries :
  foldl (λ order (kv : string * list string), order ++ [ToLower (fst kv)])
    acc entries
  = acc ++ map (λ kv, ToLower (fst kv)) entries.
Proof.
  revert acc. induction entries as [|kv entries IH]; intros acc; simpl.
  - by rewrite app_nil_r.
  - by rewrite IH, <- app_assoc.
Qed.

Lemma orderOver_map entries :
  orderOver entries = map (λ kv, ToLower (fst kv)) entries.
Proof. apply (orderOver_from []). Qed.

(** C8 (as amended). Whenever a fingerprint is built, whatever the order in
    which [range] yields the entries of [r.Header], its [HeaderOrder] is
    the lower-cased header names of the request in ascending byte order:
    a permutation of those names, sorted, and the same list for every
    iteration order. *)
Theorem buildFingerprint_headerOrder_sorted (r : Request) (now : Z)
    (entries : list (string * list string)) (fp : fingerprint) :
  entries ≡ₚ map_to_list (reqHeader r) →
  buildFingerprintOver entries r now = Some fp →
  HeaderOrder fp
    = sortStrings (map (λ kv, ToLower (fst kv)) (map_to_list (reqHeader r)))
  ∧ StronglySorted strLe (HeaderOrder fp)
  ∧ HeaderOrder fp ≡ₚ map (λ kv, ToLower (fst kv)) (map_to_list (reqHeader r)).
Proof.
  intros Hperm Hfp. unfold buildFingerprintOver in Hfp.
  destruct (extractIP r) as [ip|]; [|discriminate].
  injection Hfp as <-. cbn [HeaderOrder]. rewrite orderOver_map.
  assert (Hmap : map (λ kv : string * list string, ToLower (fst kv)) entries
                 ≡ₚ map (λ kv, ToLower (fst kv)) (map_to_list (reqHeader r)))
    by (by apply Permutation_map).
  split; [by apply sortStrings_order_free|].
  split; [apply sortStrings_sorted|].
  by rewrite sortStrings_perm.
Qed.

Lemma buildFingerprint_headerOrder_sorted_witness :
  ∃ fp,
    buildFingerprint (readRequest curlRequest) 1000 = Some fp
    ∧ HeaderOrder fp = ["accept"; "user-agent"]
    ∧ StronglySorted strLe (HeaderOrder fp).
Proof.
  destruct (buildFingerprint (readRequest curlRequest) 1000) as [fp|] eqn:Hfp;
    [|vm_compute in Hfp; discriminate].
  exists fp. split; [reflexivity|].
  destruct (buildFingerprint_headerOrder_sorted (readRequest curlRequest) 1000
              (map_to_list (reqHeader (readRequest curlRequest))) fp
              (Permutation_refl _) Hfp) as (Heq & Hsorted & _).
  split; [|exact Hsorted].
  rewrite Heq. vm_compute. reflexivity.
Defined.

(** C8 as stated fails: [curl] sends [User-Agent] before [Accept], and the
    fingerprint lists [accept] before [user-agent]. *)
Lemma buildFingerprint_headerOrder_counterexample :
  map (λ f, ToLower (fst f)) (rawFields curlRequest) = ["user-agent"; "accept"]
  ∧ HeaderOrder <$> buildFingerprint (readRequest curlRequest) 1000
    = Some ["accept"; "user-agent"]
  ∧ HeaderOrder <$> buildFingerprint (readRequest curlRequest) 1000
    ≠ Some (map (λ f, ToLower (fst f)) (rawFields curlRequest)).
Proof.
  split; [vm_compute; reflexivity|].
  split; [vm_compute; reflexivity|].
  vm_compute. discriminate.
Qed.

(* ===================================================================== *)
(** ** Facts on the engine *)
(* ===================================================================== *)

Lemma Contains_empty s : Contains s EmptyString = true.
Proof. by destruct s. Qed.

Lemma anyContains_empty lower patterns :
  EmptyString ∈ patterns → anyContains lower patterns = true.
Proof.
  intros Hin. apply anyContains_spec. exists EmptyString.
  split; [done|]. apply Contains_spec, Contains_empty.
Qed.

Section engine_facts.
Context {RE : Regexp}.

Lemma isBlockedUA_empty_pattern rm rs ua :
  EmptyString ∈ BlockedUAs rs → isBlockedUA (applyRules rm rs) ua = true.
Proof.
  intros Hin. unfold isBlockedUA. rewrite uaLower_applyRules.
  apply anyContains_empty.
  change EmptyString with (ToLower EmptyString).
  apply list_elem_of_In, in_map, list_elem_of_In, Hin.
Qed.

Lemma Analyze_blocked_ua b now r ip :
  extractIP r = Some ip →
  isBlockedUA (rules b) (HeaderGet (reqHeader r) "User-Agent") = true →
  Analyze b now r
  = Some ({| Action := "block"; Reason := "known_bot_ua";
             Confidence := 0.95 |}, b).
Proof. intros Hip Hua. unfold Analyze. by rewrite Hip, Hua. Qed.

Lemma Analyze_panics b now r : extractIP r = None → Analyze b now r = None.
Proof. intros Hip. unfold Analyze. by rewrite Hip. Qed.

Lemma isBlockedUA_default rm ua :
  isBlockedUA (applyRules rm defaultRules) ua
  = anyContains (ToLower ua) (map ToLower (BlockedUAs defaultRules)).
Proof. unfold isBlockedUA. by rewrite uaLower_applyRules. Qed.

End engine_facts.

(** C9 fails on the code for the requests on which [extractIP] panics.
    With the empty string among the blocked patterns, [isBlockedUA] is true
    for every user agent, and every request whose client address
    [extractIP] returns is blocked with reason known_bot_ua and confidence
    0.95; the request whose forwarded-for field is ["]:80"] gets no
    decision, [Analyze] panics on it before the user-agent check. *)
Theorem empty_pattern_blocks {RE : Regexp} (rm : ruleManager) (rs : RuleSet) :
  EmptyString ∈ BlockedUAs rs →
  (∀ ua, isBlockedUA (applyRules rm rs) ua = true)
  ∧ (∀ b now r ip,
       rules b = applyRules rm rs → extractIP r = Some ip →
       Analyze b now r
       = Some ({| Action := "block"; Reason := "known_bot_ua";
                  Confidence := 0.95 |}, b))
  ∧ (∀ b now,
       rules b = applyRules rm rs →
       Analyze b now (readRequest bracketRequest) = None).
Proof.
  intros Hin. split; [|split].
  - intros ua. by apply isBlockedUA_empty_pattern.
  - intros b now r ip Hb Hip. apply (Analyze_blocked_ua b now r ip Hip).
    rewrite Hb. by apply isBlockedUA_empty_pattern.
  - intros b now _. apply Analyze_panics. vm_compute. reflexivity.
Qed.

Lemma empty_pattern_blocks_witness :
  let rm := @newRuleManager defaultPatternsEngine "https://bbloker.com" "bb-sk-1" in
  let b := {| rules := @applyRules defaultPatternsEngine rm rulesEmptyUA;
              telemetry := newTelemetryClient "https://bbloker.com" "bb-sk-1" 100 true;
              limiter := newRateLimiter 60 60000 |} in
  @Analyze defaultPatternsEngine b 1000 (readRequest curlRequest)
  = Some ({| Action := "block"; Reason := "known_bot_ua"; Confidence := 0.95 |}, b)
  ∧ @Analyze defaultPatternsEngine b 1000 (readRequest bracketRequest) = None.
Proof.
  intros rm b.
  assert (Hin : EmptyString ∈ BlockedUAs rulesEmptyUA)
    by (apply list_elem_of_In; simpl; tauto).
  split.
  - apply (proj1 (proj2 (@empty_pattern_blocks defaultPatternsEngine rm
                           rulesEmptyUA Hin))
             b 1000 (readRequest curlRequest) "203.0.113.7" eq_refl).
    vm_compute. reflexivity.
  - apply (proj2 (proj2 (@empty_pattern_blocks defaultPatternsEngine rm
                           rulesEmptyUA Hin)) b 1000 eq_refl).
Defined.

(** C4 fails on the code. Under the default rules, with any regexp engine
    in which the default patterns compile and match as they do in Go, the
    request [curl] sends (an [Accept: */*] field, no [Accept-Language], no
    [Accept-Encoding]) is blocked for header anomaly with the confidence
    0.3 + 0.5 + 0.4, which is 1.2000000000000002 and above 1. *)
Theorem Analyze_confidence_above_one {RE : Regexp} (rxAny rxEmpty : Regex)
    (now : Z) :
  Compile "^\*\/\*$" = Some rxAny →
  MatchString rxAny "*/*" = true →
  Compile "^$" = Some rxEmpty →
  MatchString rxEmpty EmptyString = true →
  ∃ d b1,
    Analyze (newBbloker "https://bbloker.com" "bb-sk-1" 100 true 60 60000)
      now (readRequest curlRequest)
    = Some (d, b1)
    ∧ Action d = "block"
    ∧ Reason d = "header_anomaly"
    ∧ Confidence d = 1.2000000000000002%float
    ∧ (Confidence d <=? 1)%float = false.
Proof.
  intros Hc1 Hm1 Hc2 Hm2.
  unfold Analyze, newBbloker. cbn [rules limiter].
  replace (extractIP (readRequest curlRequest)) with (Some "203.0.113.7")
    by (vm_compute; reflexivity).
  unfold newRuleManager.
  rewrite isBlockedUA_default.
  replace (anyContains _ _) with false by (vm_compute; reflexivity).
  replace (isBlockedIP _ _) with false by (vm_compute; reflexivity).
  rewrite isExceeded_opens by (unfold opensWindow, newRateLimiter; simpl; by rewrite lookup_empty).
  rewrite headerAnomalyScore_applyRules.
  cbn [scoreOf HeaderPatterns defaultRules Pattern Name Weight].
  rewrite Hc1, Hc2.
  replace (normalizeHeaders (readRequest curlRequest) !! "accept")
    with (Some "*/*") by (vm_compute; reflexivity).
  replace (normalizeHeaders (readRequest curlRequest) !! "accept-language")
    with (@None string) by (vm_compute; reflexivity).
  replace (normalizeHeaders (readRequest curlRequest) !! "accept-encoding")
    with (@None string) by (vm_compute; reflexivity).
  cbn [from_option id]. rewrite Hm1, Hm2.
  unfold anomalyThreshold. cbn [current applyRules AnomalyThreshold defaultRules].
  replace (0.7 <? 0 + 0.3 + 0.5 + 0.4)%float with true by (vm_compute; reflexivity).
  eexists _, _. split; [reflexivity|].
  repeat split; vm_compute; reflexivity.
Qed.

Lemma Analyze_confidence_above_one_witness :
  ∃ d b1,
    @Analyze defaultPatternsEngine
      (newBbloker "https://bbloker.com" "bb-sk-1" 100 true 60 60000)
      1000 (readRequest curlRequest)
    = Some (d, b1)
    ∧ Action d = "block"
    ∧ Reason d = "header_anomaly"
    ∧ Confidence d = 1.2000000000000002%float
    ∧ (Confidence d <=? 1)%float = false.
Proof.
  exact (@Analyze_confidence_above_one defaultPatternsEngine
           "*/*" EmptyString 1000 eq_refl eq_refl eq_refl eq_refl).
Defined.

(* ===================================================================== *)
(** ** Further facts on ip.go *)
(* ===================================================================== *)

Lemma str_app_assoc a b c : (a +:+ b) +:+ c = a +:+ (b +:+ c).
Proof.
  induction a as [|x a IH]; [done|].
  change (String x ((a +:+ b) +:+ c) = String x (a +:+ (b +:+ c))).
  by f_equal.
Qed.

Lemma Count_app sep a b : Count sep (a +:+ b) = (Count sep a + Count sep b)%nat.
Proof.
  induction a as [|x a IH]; [done|].
  change (((if Ascii.eqb x sep then 1 else 0) + Count sep (a +:+ b))%nat
          = ((if Ascii.eqb x sep then 1 else 0) + Count sep a + Count sep b)%nat).
  rewrite IH. lia.
Qed.

Lemma Count_zero_Cut sep s : Count sep s = 0%nat → Cut sep s = None.
Proof.
  induction s as [|x s IH]; simpl; [done|].
  destruct (Ascii.eqb x sep); [discriminate|]. simpl. intros H. by rewrite IH.
Qed.

Lemma LastIndex_none_iff s sub :
  LastIndex s sub = None ↔ Contains s sub = false.
Proof.
  induction s as [|x s IH].
  - simpl. rewrite orb_false_r. by destruct (HasPrefix EmptyString sub).
  - cbn [LastIndex Contains]. rewrite orb_false_iff, <- IH.
    destruct (LastIndex s sub) as [[a b]|].
    + split; [discriminate | intros [_ ?]; discriminate].
    + destruct (HasPrefix (String x s) sub); split; try done.
      intros [? _]; discriminate.
Qed.

(** What [LastIndex] finds: a split of [s] at an occurrence of [sub] with
    no occurrence starting after it. *)
Lemma LastIndex_some s sub a b :
  LastIndex s sub = Some (a, b) →
  s = a +:+ b ∧ HasPrefix b sub = true
  ∧ match b with
    | String _ r => Contains r sub = false
    | EmptyString => True
    end.
Proof.
  revert a b. induction s as [|x s IH]; intros a b.
  - simpl. destruct (HasPrefix EmptyString sub) eqn:Hp; [|discriminate].
    intros [= <- <-]. done.
  - cbn [LastIndex]. destruct (LastIndex s sub) as [[a1 b1]|] eqn:Hl.
    + intros [= <- <-]. destruct (IH a1 b1 eq_refl) as (-> & Hp & Hlast). done.
    + destruct (HasPrefix (String x s) sub) eqn:Hp; [|discriminate].
      intros [= <- <-]. split; [done|]. split; [done|].
      by apply LastIndex_none_iff.
Qed.

Lemma LastIndex_here s sub :
  HasPrefix s sub = true →
  match s with
  | String _ r => Contains r sub = false
  | EmptyString => True
  end →
  LastIndex s sub = Some (EmptyString, s).
Proof.
  destruct s as [|x s]; simpl.
  - intros Hp _. by rewrite Hp.
  - intros Hp Hc. apply LastIndex_none_iff in Hc. by rewrite Hc, Hp.
Qed.

Lemma LastIndex_app pre s sub a b :
  LastIndex s sub = Some (a, b) →
  LastIndex (pre +:+ s) sub = Some (pre +:+ a, b).
Proof.
  intros Hs. induction pre as [|x pre IH]; simpl; [done | by rewrite IH].
Qed.

(** [stripPort] panics exactly on the addresses that start with "]:" and
    have no other "]:" in them. *)
Theorem stripPort_panics_iff (addr : string) :
  stripPort addr = None
  ↔ ∃ rest, addr = "]:" +:+ rest ∧ Contains rest "]:" = false.
Proof.
  unfold stripPort. split.
  - destruct (LastIndex addr "]:") as [[before from]|] eqn:Hl.
    + destruct before as [|x before]; [|discriminate]. intros _.
      destruct (LastIndex_some _ _ _ _ Hl) as (Haddr & Hp & Hlast).
      simpl in Haddr. subst addr.
      apply HasPrefix_spec in Hp as [rest ->]. exists rest. split; [done|].
      simpl in Hlast. cbn [Contains HasPrefix] in Hlast. done.
    + destruct (Count ":" addr =? 1)%nat; [|discriminate].
      destruct (Cut ":" addr) as [[host port]|]; discriminate.
  - intros (rest & -> & Hrest).
    rewrite (LastIndex_here ("]:" +:+ rest) "]:"); [done | done |].
    simpl. cbn [Contains HasPrefix]. done.
Qed.

(** [stripPort] on the three shapes of address it is written for: in
    [host:port] with no other colon and no bracket before the colon it
    keeps the host; in [[v6]:port] it keeps what is between the first byte
    and the last "]:"; an address with no "]:" and not exactly one colon is
    returned as it is. *)
Theorem stripPort_shapes :
  (∀ host port,
      Count ":" host = 0%nat → Count ":" port = 0%nat →
      (∀ pre, host ≠ pre +:+ "]") →
      stripPort (host +:+ String ":" port) = Some host)
  ∧ (∀ c v6 port,
      Contains port "]:" = false →
      stripPort (String c (v6 +:+ "]:" +:+ port)) = Some v6)
  ∧ (∀ addr,
      Contains addr "]:" = false → Count ":" addr ≠ 1%nat →
      stripPort addr = Some addr).
Proof.
  split; [|split].
  - intros host port Hh Hp Hbr. unfold stripPort.
    assert (Hcut : Cut ":" (host +:+ String ":" port) = Some (host, port))
      by (by apply Cut_app_sep, Count_zero_Cut).
    assert (Hcount : Count ":" (host +:+ String ":" port) = 1%nat)
      by (rewrite Count_app; simpl; lia).
    destruct (Contains (host +:+ String ":" port) "]:") eqn:Hc.
    + exfalso. apply Contains_spec in Hc as (pre & post & Heq).
      change (pre +:+ "]:" +:+ post)
        with (pre +:+ ("]" +:+ String ":" post)) in Heq.
      rewrite <- str_app_assoc in Heq.
      assert (Hpre : Count ":" (pre +:+ "]") = 0%nat).
      { rewrite Heq, Count_app in Hcount. simpl in Hcount. lia. }
      rewrite Heq, (Cut_app_sep ":" (pre +:+ "]")) in Hcut
        by (by apply Count_zero_Cut).
      injection Hcut as Hhost _. by apply (Hbr pre).
    + apply LastIndex_none_iff in Hc. rewrite Hc, Hcount, Hcut. done.
  - intros c v6 port Hport. unfold stripPort.
    change (String c (v6 +:+ "]:" +:+ port))
      with (String c v6 +:+ ("]:" +:+ port)).
    rewrite (LastIndex_app (String c v6) ("]:" +:+ port) "]:" EmptyString
               ("]:" +:+ port)).
    + assert (Hnil : ∀ s : string, s +:+ EmptyString = s).
      { intros s. induction s as [|x s IH]; [done|].
        change (String x (s +:+ EmptyString) = String x s). by f_equal. }
      change (String c v6 +:+ EmptyString) with (String c (v6 +:+ EmptyString)).
      by rewrite Hnil.
    + apply LastIndex_here; [done|]. simpl. cbn [Contains HasPrefix]. done.
  - intros addr Hc Hcount. unfold stripPort.
    apply LastIndex_none_iff in Hc. rewrite Hc.
    destruct (Nat.eqb_spec (Count ":" addr) 1); [done | done].
Qed.

Lemma stripPort_shapes_witness :
  stripPort "203.0.113.7:51000" = Some "203.0.113.7"
  ∧ stripPort "[2001:db8::1]:443" = Some "2001:db8::1"
  ∧ stripPort "2001:db8::1" = Some "2001:db8::1".
Proof.
  split; [|split].
  - apply (proj1 stripPort_shapes "203.0.113.7" "51000");
      [reflexivity | reflexivity |].
    intros pre Hpre.
    assert (H : Contains "203.0.113.7" "]" = true)
      by (apply Contains_spec; by exists pre, EmptyString).
    vm_compute in H. discriminate.
  - apply (proj1 (proj2 stripPort_shapes) "["%char "2001:db8::1" "443"). reflexivity.
  - apply (proj2 (proj2 stripPort_shapes) "2001:db8::1"); [reflexivity|].
    vm_compute. discriminate.
Defined.













Lemma topBits_wider m n x :
  0 <= m <= n → topBits m x = Z.shiftr (topBits n x) (n - m).
Proof.
  intros Hmn. unfold topBits. rewrite Z.shiftr_shiftr by lia. f_equal. lia.
Qed.

(** A shorter prefix is a wider range: a client address inside a.b.c.d/n is
    inside a.b.c.d/m for every m <= n. *)
Theorem cidrContains_wider_prefix (a b c d m n e f g h : Z) :
  octet a → octet b → octet c → octet d →
  octet e → octet f → octet g → octet h →
  0 <= m <= n → n <= 32 →
  cidrContains (quad a b c d +:+ String "/" (decimal n)) (quad e f g h) = true →
  cidrContains (quad a b c d +:+ String "/" (decimal m)) (quad e f g h) = true.
Proof.
  intros Ha Hb Hc Hd He Hf Hg Hh Hmn Hn Hmatch.
  apply cidrContains_quads in Hmatch as (H1 & H2 & Htop); try done; [|lia].
  apply cidrContains_quads; try done; [lia|].
  split; [done|]. split; [done|].
  rewrite (topBits_wider m n), (topBits_wider m n (ip4 e f g h)) by lia.
  by rewrite Htop.
Qed.

Lemma cidrContains_wider_prefix_witness :
  cidrContains "20.15.240.0/8" "20.15.240.5" = true.
Proof.
  apply (cidrContains_wider_prefix 20 15 240 0 8 20 20 15 240 5);
    unfold octet; try lia. reflexivity.
Defined.

(** The two ends of the prefix range, on dotted quads other than 0.0.0.0:
    /32 matches its own address and no other; /0 matches every address. *)
Theorem cidrContains_prefix_ends (a b c d e f g h : Z) :
  octet a → octet b → octet c → octet d →
  octet e → octet f → octet g → octet h →
  ip4 a b c d ≠ 0 → ip4 e f g h ≠ 0 →
  (cidrContains (quad a b c d +:+ "/32") (quad e f g h) = true
   ↔ a = e ∧ b = f ∧ c = g ∧ d = h)
  ∧ cidrContains (quad a b c d +:+ "/0") (quad e f g h) = true.
Proof.
  intros Ha Hb Hc Hd He Hf Hg Hh Hx Hy. split.
  - change "/32" with (String "/" (decimal 32)).
    rewrite cidrContains_quads by (try done; lia).
    unfold topBits. change (32 - 32) with 0. rewrite !Z.shiftr_0_r.
    unfold ip4, octet in *. split.
    + intros (_ & _ & Heq). lia.
    + intros (-> & -> & -> & ->). done.
  - change "/0" with (String "/" (decimal 0)).
    apply cidrContains_quads; try done; try lia.
    split; [done|]. split; [done|].
    unfold topBits. change (32 - 0) with 32.
    rewrite !Z.shiftr_div_pow2 by lia.
    unfold ip4, octet in *.
    rewrite !Z.div_small by lia. done.
Qed.

Lemma cidrContains_prefix_ends_witness :
  (cidrContains "20.15.240.5/32" "20.15.240.6" = true
   ↔ 20 = 20 ∧ 15 = 15 ∧ 240 = 240 ∧ 5 = 6)
  ∧ cidrContains "20.15.240.5/0" "8.8.8.8" = true.
Proof.
  split.
  - apply (proj1 (cidrContains_prefix_ends 20 15 240 5 20 15 240 6
                    ltac:(unfold octet; lia) ltac:(unfold octet; lia)
                    ltac:(unfold octet; lia) ltac:(unfold octet; lia)
                    ltac:(unfold octet; lia) ltac:(unfold octet; lia)
                    ltac:(unfold octet; lia) ltac:(unfold octet; lia)
                    ltac:(vm_compute; discriminate)
                    ltac:(vm_compute; discriminate))).
  - apply (proj2 (cidrContains_prefix_ends 20 15 240 5 8 8 8 8
                    ltac:(unfold octet; lia) ltac:(unfold octet; lia)
                    ltac:(unfold octet; lia) ltac:(unfold octet; lia)
                    ltac:(unfold octet; lia) ltac:(unfold octet; lia)
                    ltac:(unfold octet; lia) ltac:(unfold octet; lia)
                    ltac:(vm_compute; discriminate)
                    ltac:(vm_compute; discriminate))).
Defined.

Lemma anyCidrContains_spec cidrs ip :
  anyCidrContains cidrs ip = true
  ↔ ∃ cidr, cidr ∈ cidrs ∧ cidrContains cidr ip = true.
Proof.
  induction cidrs as [|c cidrs IH]; simpl.
  - split; [done | intros (x & Hx & _); by apply elem_of_nil in Hx].
  - destruct (cidrContains c ip) eqn:Hc.
    + split; [intros _ | done]. exists c. split; [left | done].
    + rewrite IH. split.
      * intros (x & Hx & Hm). exists x. split; [by right | done].
      * intros (x & Hx & Hm). apply elem_of_cons in Hx as [->|Hx];
          [congruence | by exists x].
Qed.

(** [isBlockedIP] is true exactly when some entry of the block list
    contains the address; over a list of entries with no slash in them that
    is membership of the address, as a string, in the list. *)
Theorem isBlockedIP_spec {RE : Regexp} (rm : ruleManager) (ip : string) :
  (isBlockedIP rm ip = true
   ↔ ∃ cidr, cidr ∈ BlockedIPs (current rm) ∧ cidrContains cidr ip = true)
  ∧ (Forall plainEntry (BlockedIPs (current rm)) →
     (isBlockedIP rm ip = true ↔ ip ∈ BlockedIPs (current rm))).
Proof.
  unfold isBlockedIP. split; [apply anyCidrContains_spec|].
  intros Hplain. rewrite anyCidrContains_spec. split.
  - intros (cidr & Hin & Hm).
    rewrite Forall_forall in Hplain.
    apply cidrContains_no_slash in Hm; [by subst | by apply Hplain].
  - intros Hin. exists ip. split; [done|].
    rewrite Forall_forall in Hplain.
    by apply cidrContains_no_slash; [apply Hplain|].
Qed.

Lemma isBlockedIP_spec_witness :
  let rm := @applyRules defaultPatternsEngine
              (@newRuleManager defaultPatternsEngine "https://bbloker.com" "bb-sk-1")
              {| Version := 4; UpdatedAt := EmptyString; BlockedUAs := [];
                 BlockedIPs := ["203.0.113.7"; "2001:db8::1"];
                 HeaderPatterns := []; AnomalyThreshold := 0.7 |} in
  @isBlockedIP defaultPatternsEngine rm "2001:db8::1" = true
  ↔ "2001:db8::1" ∈ BlockedIPs (current rm).
Proof.
  intros rm.
  apply (proj2 (@isBlockedIP_spec defaultPatternsEngine rm "2001:db8::1")).
  repeat constructor.
Defined.

(* ===================================================================== *)
(** ** Further facts on the rate limiter *)
(* ===================================================================== *)

Lemma isExceeded_config rl now ip :
  maxRequests (snd (isExceeded rl now ip)) = maxRequests rl
  ∧ windowMs (snd (isExceeded rl now ip)) = windowMs rl.
Proof.
  unfold isExceeded. destruct (windows rl !! ip) as [w|]; [|done].
  by destruct (resetAt w <=? now).
Qed.

Lemma isExceeded_other rl now ip other :
  ip ≠ other →
  windows (snd (isExceeded rl now ip)) !! other = windows rl !! other.
Proof.
  intros Hne. unfold isExceeded. destruct (windows rl !! ip) as [w|].
  - destruct (resetAt w <=? now); simpl; by rewrite lookup_insert_ne.
  - simpl. by rewrite lookup_insert_ne.
Qed.

(** What a call answers and stores for [ip] depends on the limiter only
    through its settings and the window of [ip]. *)
Lemma isExceeded_local rl1 rl2 now ip :
  windows rl1 !! ip = windows rl2 !! ip →
  maxRequests rl1 = maxRequests rl2 → windowMs rl1 = windowMs rl2 →
  fst (isExceeded rl1 now ip) = fst (isExceeded rl2 now ip)
  ∧ windows (snd (isExceeded rl1 now ip)) !! ip
    = windows (snd (isExceeded rl2 now ip)) !! ip.
Proof.
  intros Hw Hm Hd. unfold isExceeded, freshWindow. rewrite Hw, Hm, Hd.
  destruct (windows rl2 !! ip) as [w|].
  - destruct (resetAt w <=? now); simpl; by rewrite !lookup_insert_eq.
  - simpl. by rewrite !lookup_insert_eq.
Qed.

(** The keys do not interfere: a call for one address changes neither the
    window of another address nor the settings, so the answer to the other
    address, and the window it is left with, are the same with and without
    that call. *)
Theorem isExceeded_keys_independent (rl : rateLimiter) (t now : Z)
    (ip other : string) :
  ip ≠ other →
  windows (snd (isExceeded rl t other)) !! ip = windows rl !! ip
  ∧ fst (isExceeded (snd (isExceeded rl t other)) now ip)
    = fst (isExceeded rl now ip)
  ∧ windows (snd (isExceeded (snd (isExceeded rl t other)) now ip)) !! ip
    = windows (snd (isExceeded rl now ip)) !! ip.
Proof.
  intros Hne.
  assert (Hw : windows (snd (isExceeded rl t other)) !! ip = windows rl !! ip)
    by (by apply isExceeded_other).
  split; [done|].
  destruct (isExceeded_config rl t other) as [Hm Hd].
  by apply isExceeded_local.
Qed.

Lemma isExceeded_keys_independent_witness :
  let rl := newRateLimiter 1 1000 in
  fst (isExceeded (snd (isExceeded rl 5 "198.51.100.9")) 7 "203.0.113.7")
  = fst (isExceeded rl 7 "203.0.113.7").
Proof.
  intros rl.
  apply (isExceeded_keys_independent rl 5 7 "203.0.113.7" "198.51.100.9").
  discriminate.
Defined.

(** Once the window of an address holds [maxRequests] calls or more, every
    further call inside the window is reported as exceeded, as long as the
    counter stays below the largest [int]. *)
Theorem isExceeded_stays_exceeded (ip : string) (times : list Z) :
  ∀ (rl : rateLimiter) (w : window),
    windows rl !! ip = Some w →
    minInt64 <= maxRequests rl <= count w →
    count w + Z.of_nat (length times) <= maxInt64 →
    Forall (λ t, t < resetAt w) times →
    fst (isExceededSeq rl ip times) = replicate (length times) true.
Proof.
  induction times as [|t times IH]; intros rl w Hw Hcap Hfit Hall; [done|].
  apply Forall_cons in Hall as [Ht Hall].
  cbn [isExceededSeq length] in *.
  rewrite (isExceeded_within rl t ip w) by done.
  rewrite wrap64_small by (unfold minInt64, maxInt64 in *; lia).
  set (w1 := {| count := count w + 1; resetAt := resetAt w |}).
  set (rl1 := setWindows rl (<[ip := w1]> (windows rl))).
  specialize (IH rl1 w1).
  destruct (isExceededSeq rl1 ip times) as [bs rl2]. simpl in *.
  rewrite IH; try done.
  - f_equal. apply Z.ltb_lt. lia.
  - apply lookup_insert_eq.
  - lia.
  - lia.
Qed.

Lemma isExceeded_stays_exceeded_witness :
  let rl := snd (isExceededSeq (newRateLimiter 2 1000) "203.0.113.7" [0; 1]) in
  fst (isExceededSeq rl "203.0.113.7" [2; 3; 999]) = [true; true; true].
Proof.
  intros rl.
  apply (isExceeded_stays_exceeded "203.0.113.7" [2; 3; 999] rl
           {| count := 2; resetAt := 1000 |}).
  - vm_compute. reflexivity.
  - vm_compute. split; discriminate.
  - vm_compute. discriminate.
  - repeat constructor; simpl; lia.
Defined.

Lemma cleanup_lookup rl now k :
  windows (cleanup rl now) !! k
  = match windows rl !! k with
    | Some w => if decide (now < resetAt w) then Some w else None
    | None => None
    end.
Proof.
  unfold cleanup. simpl. rewrite map_lookup_filter.
  destruct (windows rl !! k) as [w|]; simpl; [|done].
  case_guard; simpl in *; destruct (decide (now < resetAt w)); done.
Qed.

(** [cleanup] removes the windows that have expired and no other, and no
    caller can tell: at the time of the cleanup or later, [isExceeded]
    answers the same and leaves the same window for the address whether the
    cleanup has run or not. *)
Theorem cleanup_unobservable (rl : rateLimiter) (now : Z) :
  (∀ k w,
      windows (cleanup rl now) !! k = Some w
      ↔ windows rl !! k = Some w ∧ now < resetAt w)
  ∧ (∀ ip later,
      now <= later →
      fst (isExceeded (cleanup rl now) later ip) = fst (isExceeded rl later ip)
      ∧ windows (snd (isExceeded (cleanup rl now) later ip)) !! ip
        = windows (snd (isExceeded rl later ip)) !! ip).
Proof.
  split.
  - intros k w. rewrite cleanup_lookup.
    destruct (windows rl !! k) as [w0|]; [|split; [done | intros [? _]; done]].
    destruct (decide (now < resetAt w0)); split.
    + intros [= ->]. done.
    + intros [[= ->] _]. done.
    + done.
    + intros [[= ->] ?]. done.
  - intros ip later Hlater.
    unfold isExceeded at 1 3. rewrite cleanup_lookup.
    destruct (windows rl !! ip) as [w|] eqn:Hw.
    + destruct (decide (now < resetAt w)) as [Hlive|Hdead].
      * unfold isExceeded. rewrite Hw.
        destruct (resetAt w <=? later); simpl; by rewrite !lookup_insert_eq.
      * unfold isExceeded. rewrite Hw.
        replace (resetAt w <=? later) with true
          by (symmetry; apply Z.leb_le; lia).
        simpl. by rewrite !lookup_insert_eq.
    + unfold isExceeded. rewrite Hw. simpl. by rewrite !lookup_insert_eq.
Qed.

Lemma cleanup_unobservable_witness :
  let rl := snd (isExceededSeq (newRateLimiter 1 1000) "203.0.113.7" [0; 1]) in
  fst (isExceeded (cleanup rl 500) 600 "203.0.113.7")
  = fst (isExceeded rl 600 "203.0.113.7").
Proof.
  intros rl.
  apply (proj2 (cleanup_unobservable rl 500) "203.0.113.7" 600). lia.
Defined.

Lemma isExceededSeq_nonpositive_window ip times :
  ∀ rl t0,
    windowMs rl <= 0 →
    opensWindow rl ip t0 →
    nondecreasing t0 times →
    Forall (windowFits rl) (t0 :: times) →
    fst (isExceededSeq rl ip (t0 :: times))
    = replicate (length (t0 :: times)) false.
Proof.
  induction times as [|t1 times IH]; intros rl t0 Hwin Hopen Hmono Hfit.
  - cbn [isExceededSeq]. by rewrite isExceeded_opens.
  - cbn [isExceededSeq] in *. rewrite isExceeded_opens by done.
    apply Forall_cons in Hfit as [Hfit0 Hfit].
    destruct Hmono as [Hle Hmono].
    set (rl1 := setWindows rl (<[ip := freshWindow rl t0]> (windows rl))).
    specialize (IH rl1 t1).
    destruct (isExceeded rl1 t1 ip) as [b1 rl2].
    destruct (isExceededSeq rl2 ip times) as [bs rl3].
    simpl in *. f_equal. apply IH; try done.
    unfold opensWindow. subst rl1. simpl. rewrite lookup_insert_eq. simpl.
    unfold windowFits in Hfit0. rewrite wrap64_small by done. lia.
Qed.

(** With a window of zero or negative length, no call is ever reported as
    exceeded while the clock does not go back: every call finds the
    window already over and opens a new one. *)
Theorem isExceeded_nonpositive_window (rl : rateLimiter) (ip : string)
    (t0 : Z) (times : list Z) :
  windowMs rl <= 0 →
  opensWindow rl ip t0 →
  nondecreasing t0 times →
  Forall (windowFits rl) (t0 :: times) →
  fst (isExceededSeq rl ip (t0 :: times))
  = replicate (length (t0 :: times)) false.
Proof. apply isExceededSeq_nonpositive_window. Qed.

Lemma isExceeded_nonpositive_window_witness :
  fst (isExceededSeq (newRateLimiter 1 0) "203.0.113.7" [5; 5; 6; 7])
  = [false; false; false; false].
Proof.
  apply (isExceeded_nonpositive_window (newRateLimiter 1 0) "203.0.113.7" 5 [5; 6; 7]).
  - simpl. lia.
  - exact I.
  - simpl. lia.
  - repeat constructor; unfold windowFits, minInt64, maxInt64; simpl; lia.
Defined.

(* ===================================================================== *)
(** ** Further facts on the rule manager *)
(* ===================================================================== *)

Section rules_more.
Context {RE : Regexp}.

Lemma cachesFresh_applyRules rm rs : cachesFresh (applyRules rm rs).
Proof. split; [apply uaLower_applyRules | apply headerRe_applyRules]. Qed.

Lemma cachesFresh_syncOnce rm fetched :
  cachesFresh rm → cachesFresh (syncOnce rm fetched).
Proof.
  intros Hrm. destruct fetched as [rs|]; simpl; [|done].
  destruct (Version (current rm) <? Version rs); [apply cachesFresh_applyRules | done].
Qed.

Lemma cachesFresh_syncs fetches : ∀ rm,
  cachesFresh rm → cachesFresh (foldl syncOnce rm fetches).
Proof.
  induction fetches as [|f fetches IH]; intros rm Hrm; simpl; [done|].
  by apply IH, cachesFresh_syncOnce.
Qed.

Lemma cachesFresh_score rm headers :
  cachesFresh rm →
  headerAnomalyScore rm headers
  = Some (scoreOf headers (HeaderPatterns (current rm)) 0%float).
Proof.
  intros [_ Hre]. unfold headerAnomalyScore. rewrite Hre.
  apply (scoreLoop_parallel headers (HeaderPatterns (current rm)) []).
Qed.

Lemma scoreLoop_headers re h1 h2 hps : ∀ i score,
  (∀ hp, hp ∈ hps → h1 !! Name hp = h2 !! Name hp) →
  scoreLoop re h1 i hps score = scoreLoop re h2 i hps score.
Proof.
  induction hps as [|hp hps IH]; intros i score Hsame; simpl; [done|].
  rewrite (Hsame hp) by by left.
  destruct (re !! i) as [[rx|]|]; [|by apply IH; intros; apply Hsame; right|done].
  destruct (MatchString rx _); apply IH; intros; apply Hsame; by right.
Qed.

Lemma syncOnce_version rm fetched :
  Version (current (syncOnce rm fetched))
  = match fetched with
    | Some rs => Z.max (Version (current rm)) (Version rs)
    | None => Version (current rm)
    end.
Proof.
  destruct fetched as [rs|]; simpl; [|done].
  destruct (Z.ltb_spec (Version (current rm)) (Version rs)); simpl; lia.
Qed.

Lemma syncOnce_fold_max fetches : ∀ rm,
  Version (current (foldl syncOnce rm fetches))
  = maxVersion (Version (current rm)) fetches.
Proof.
  induction fetches as [|f fetches IH]; intros rm; simpl; [done|].
  rewrite IH, syncOnce_version. by destruct f.
Qed.

End rules_more.

(** In every state the manager goes through, from [newRuleManager] on and
    over any sequence of syncs (failed ones included), the caches agree
    with the current rule set: [uaLower] is its blocked user agents in
    lower case, [headerRe] its header patterns compiled; so the score loop
    never indexes out of range there. *)
Theorem ruleManager_caches_fresh {RE : Regexp} (url key : string)
    (fetches : list (option RuleSet)) (headers : gmap string string) :
  let rm := foldl syncOnce (newRuleManager url key) fetches in
  uaLower rm = map ToLower (BlockedUAs (current rm))
  ∧ headerRe rm = map (λ hp, Compile (Pattern hp)) (HeaderPatterns (current rm))
  ∧ headerAnomalyScore rm headers
    = Some (scoreOf headers (HeaderPatterns (current rm)) 0%float).
Proof.
  intros rm.
  assert (Hfresh : cachesFresh rm)
    by (apply cachesFresh_syncs, cachesFresh_applyRules).
  destruct Hfresh as [Hua Hre]. split; [done|]. split; [done|].
  by apply cachesFresh_score.
Qed.

(** After any sequence of syncs the current version is the largest of the
    starting version and the versions fetched; and a rule set that is
    fetched a second time changes nothing. *)
Theorem syncOnce_largest_version {RE : Regexp} (rm : ruleManager)
    (fetches : list (option RuleSet)) (fetched : option RuleSet) :
  Version (current (foldl syncOnce rm fetches))
  = maxVersion (Version (current rm)) fetches
  ∧ syncOnce (syncOnce rm fetched) fetched = syncOnce rm fetched.
Proof.
  split; [apply syncOnce_fold_max|].
  destruct fetched as [rs|]; [|done]. simpl.
  destruct (Z.ltb_spec (Version (current rm)) (Version rs)) as [Hlt|Hge]; simpl.
  - by rewrite Z.ltb_irrefl.
  - by replace (Version (current rm) <? Version rs) with false
      by (symmetry; apply Z.ltb_ge; lia).
Qed.

(** The anomaly score looks at no header other than those the patterns
    name: two header maps that agree on these names get the same score
    (or the same panic). *)
Theorem headerAnomalyScore_named_headers {RE : Regexp} (rm : ruleManager)
    (h1 h2 : gmap string string) :
  (∀ hp, hp ∈ HeaderPatterns (current rm) → h1 !! Name hp = h2 !! Name hp) →
  headerAnomalyScore rm h1 = headerAnomalyScore rm h2.
Proof. intros Hsame. unfold headerAnomalyScore. by apply scoreLoop_headers. Qed.

Lemma headerAnomalyScore_named_headers_witness :
  let rm := @newRuleManager defaultPatternsEngine "https://bbloker.com" "bb-sk-1" in
  @headerAnomalyScore defaultPatternsEngine rm
    {["accept" := "*/*"; "x-request-id" := "42"]}
  = @headerAnomalyScore defaultPatternsEngine rm {["accept" := "*/*"]}.
Proof.
  intros rm.
  apply (@headerAnomalyScore_named_headers defaultPatternsEngine rm).
  intros hp Hin.
  apply list_elem_of_In in Hin. simpl in Hin.
  destruct Hin as [<-|[<-|[<-|[]]]]; vm_compute; reflexivity.
Defined.

(* ===================================================================== *)
(** ** Further facts on the telemetry client *)
(* ===================================================================== *)

Lemma pushW_client w fp :
  enabled (client w) = true →
  buffer (client (pushW w fp)) = buffer (client w) ++ [fp]
  ∧ enabled (client (pushW w fp)) = true
  ∧ sent (pushW w fp) = sent w.
Proof. intros He. unfold pushW. by rewrite push_enabled. Qed.

Lemma flushW_conserves w :
  concat (sent (flushW w)) ++ buffer (client (flushW w))
  = concat (sent w) ++ buffer (client w)
  ∧ enabled (client (flushW w)) = enabled (client w).
Proof.
  unfold flushW, flush. destruct (buffer (client w)) as [|fp buf] eqn:Hb; simpl.
  - by rewrite Hb.
  - by rewrite concat_app, app_nil_r; simpl; rewrite app_nil_r.
Qed.

Lemma runSpawned_conserves w :
  concat (sent (runSpawned w)) ++ buffer (client (runSpawned w))
  = concat (sent w) ++ buffer (client w)
  ∧ enabled (client (runSpawned w)) = enabled (client w).
Proof.
  unfold runSpawned. destruct (spawned w) as [|n]; [done|].
  apply (flushW_conserves {| client := client w; spawned := n; sent := sent w |}).
Qed.

Lemma stepW_conserves w e :
  enabled (client w) = true →
  concat (sent (stepW w e)) ++ buffer (client (stepW w e))
  = concat (sent w) ++ buffer (client w) ++ pushedBy [e]
  ∧ enabled (client (stepW w e)) = true.
Proof.
  intros He. destruct e as [fp| |]; simpl.
  - destruct (pushW_client w fp He) as (Hb & Hen & Hs). by rewrite Hb, Hs.
  - destruct (flushW_conserves w) as [Hc Hen]. by rewrite Hc, Hen, app_nil_r.
  - destruct (runSpawned_conserves w) as [Hc Hen]. by rewrite Hc, Hen, app_nil_r.
Qed.

Lemma pushedBy_cons e events : pushedBy (e :: events) = pushedBy [e] ++ pushedBy events.
Proof. by destruct e. Qed.

Lemma stepsW_conserve events : ∀ w,
  enabled (client w) = true →
  concat (sent (foldl stepW w events)) ++ buffer (client (foldl stepW w events))
  = concat (sent w) ++ buffer (client w) ++ pushedBy events
  ∧ enabled (client (foldl stepW w events)) = true.
Proof.
  induction events as [|e events IH]; intros w He.
  - simpl. by rewrite app_nil_r.
  - destruct (stepW_conserves w e He) as [Hc Hen].
    destruct (IH (stepW w e) Hen) as [Hc2 Hen2].
    cbn [foldl]. rewrite Hc2, app_assoc, Hc, (pushedBy_cons e events). split; [|done].
    by rewrite <- !app_assoc.
Qed.

Lemma stepW_batches_nonempty w e :
  Forall (λ batch, batch ≠ []) (sent w) →
  Forall (λ batch, batch ≠ []) (sent (stepW w e)).
Proof.
  intros Hs.
  assert (Hflush : ∀ w0, Forall (λ batch : list fingerprint, batch ≠ []) (sent w0) →
                         Forall (λ batch, batch ≠ []) (sent (flushW w0))).
  { intros w0 H0. unfold flushW, flush.
    destruct (buffer (client w0)) as [|fp buf]; simpl; [done|].
    apply Forall_app. split; [done|]. by constructor. }
  destruct e as [fp| |]; simpl.
  - unfold pushW. by destruct (push (client w) fp).
  - by apply Hflush.
  - unfold runSpawned. destruct (spawned w); [done|]. by apply Hflush.
Qed.

Lemma stepsW_batches_nonempty events : ∀ w,
  Forall (λ batch, batch ≠ []) (sent w) →
  Forall (λ batch, batch ≠ []) (sent (foldl stepW w events)).
Proof.
  induction events as [|e events IH]; intros w Hs; [done|].
  cbn [foldl]. by apply IH, stepW_batches_nonempty.
Qed.

(** Nothing is lost and nothing is sent twice inside the client. With
    telemetry enabled, however pushes, flushes and the flushes started by
    [push] interleave: the batches taken so far, one after the other,
    followed by the buffer, are what was buffered at the start followed by
    the pushed fingerprints in push order; and no batch is empty. *)
Theorem telemetry_conserves (tc : telemetryClient)
    (events : list telemetryEvent) :
  enabled tc = true →
  let w := foldl stepW (startWorld tc) events in
  concat (sent w) ++ buffer (client w) = buffer tc ++ pushedBy events
  ∧ Forall (λ batch, batch ≠ []) (sent w).
Proof.
  intros He w. split.
  - by destruct (stepsW_conserve events (startWorld tc) He) as [Hc _].
  - apply stepsW_batches_nonempty. constructor.
Qed.

Lemma telemetry_conserves_witness :
  let tc := newTelemetryClient "https://bbloker.com" "bb-sk-1" 1 true in
  let w := foldl stepW (startWorld tc)
             [EvPush fpA; EvRunSpawned; EvPush fpB; EvFlush; EvRunSpawned] in
  concat (sent w) ++ buffer (client w) = [fpA; fpB]
  ∧ Forall (λ batch, batch ≠ []) (sent w).
Proof.
  intros tc w.
  exact (telemetry_conserves tc
           [EvPush fpA; EvRunSpawned; EvPush fpB; EvFlush; EvRunSpawned] eq_refl).
Defined.

(** With telemetry disabled the client is inert: whatever is pushed and
    however often it is flushed, the buffer stays empty, no flush is
    started and nothing is sent. *)
Theorem telemetry_disabled_inert (tc : telemetryClient)
    (events : list telemetryEvent) :
  enabled tc = false → buffer tc = [] →
  foldl stepW (startWorld tc) events = startWorld tc.
Proof.
  intros He Hb. induction events as [|e events IH] using rev_ind; [done|].
  rewrite foldl_app. cbn [foldl]. rewrite IH.
  destruct e as [fp| |]; simpl.
  - unfold pushW. simpl. by rewrite push_disabled.
  - apply flushW_empty. done.
  - done.
Qed.

Lemma telemetry_disabled_inert_witness :
  let tc := newTelemetryClient "https://bbloker.com" "bb-sk-1" 1 false in
  foldl stepW (startWorld tc) [EvPush fpA; EvPush fpB; EvFlush] = startWorld tc.
Proof.
  intros tc.
  exact (telemetry_disabled_inert tc [EvPush fpA; EvPush fpB; EvFlush]
           eq_refl eq_refl).
Defined.

(** [Close] leaves nothing behind. On an enabled client that started
    empty, after any interleaving of pushes and flushes, the batches taken
    before together with the batch of [Close] are exactly the pushed
    fingerprints in push order, and the buffer is empty; the rules and the
    limiter are not touched. *)
Theorem Close_flushes_everything {RE : Regexp} (b : Bbloker)
    (events : list telemetryEvent) :
  enabled (telemetry b) = true → buffer (telemetry b) = [] →
  let w := foldl stepW (startWorld (telemetry b)) events in
  let closed :=
    Close {| rules := rules b; telemetry := client w; limiter := limiter b |} in
  concat (sent w) ++ default [] (snd closed) = pushedBy events
  ∧ buffer (telemetry (fst closed)) = []
  ∧ rules (fst closed) = rules b
  ∧ limiter (fst closed) = limiter b.
Proof.
  intros He Hb w closed.
  destruct (stepsW_conserve events (startWorld (telemetry b)) He) as [Hc _].
  fold w in Hc. simpl in Hc. rewrite Hb in Hc. simpl in Hc.
  subst closed. unfold Close, flush. simpl.
  destruct (buffer (client w)) as [|fp buf] eqn:Hbuf; simpl.
  - by rewrite app_nil_r in *.
  - done.
Qed.

Lemma Close_flushes_everything_witness :
  let b := @newBbloker defaultPatternsEngine "https://bbloker.com" "bb-sk-1"
             100 true 60 60000 in
  let w := foldl stepW (startWorld (telemetry b))
             [EvPush fpA; EvFlush; EvPush fpB] in
  concat (sent w)
  ++ default []
       (snd (@Close defaultPatternsEngine
               {| rules := rules b; telemetry := client w; limiter := limiter b |}))
  = [fpA; fpB].
Proof.
  intros b w.
  exact (proj1 (@Close_flushes_everything defaultPatternsEngine b
                  [EvPush fpA; EvFlush; EvPush fpB] eq_refl eq_refl)).
Defined.

(* ===================================================================== *)
(** ** Further facts on the header map and the fingerprint *)
(* ===================================================================== *)

Lemma headersOver_from_hit entries n x : ∀ acc : gmap string string,
  (∀ kv, kv ∈ entries → ToLower (fst kv) = n → Join (snd kv) ", " = x) →
  (∃ kv, kv ∈ entries ∧ ToLower (fst kv) = n) ∨ acc !! n = Some x →
  foldl (λ h (kv : string * list string),
           <[ToLower (fst kv) := Join (snd kv) ", "]> h) acc entries !! n
  = Some x.
Proof.
  induction entries as [|kv entries IH]; intros acc Hval Hhit; simpl.
  - destruct Hhit as [(kv & Hin & _)|Hacc]; [by apply elem_of_nil in Hin | done].
  - apply IH.
    + intros kv' Hin. apply Hval. by right.
    + destruct (decide (ToLower (fst kv) = n)) as [Heq|Hne].
      * right. rewrite Heq, lookup_insert_eq. f_equal. apply Hval; [by left | done].
      * destruct Hhit as [(kv' & Hin & Hkv')|Hacc].
        -- apply elem_of_cons in Hin as [->|Hin]; [done|]. left. by exists kv'.
        -- right. by rewrite lookup_insert_ne.
Qed.

Lemma headersOver_from_miss entries n : ∀ acc : gmap string string,
  (∀ kv, kv ∈ entries → ToLower (fst kv) ≠ n) →
  foldl (λ h (kv : string * list string),
           <[ToLower (fst kv) := Join (snd kv) ", "]> h) acc entries !! n
  = acc !! n.
Proof.
  induction entries as [|kv entries IH]; intros acc Hmiss; simpl; [done|].
  rewrite IH by (intros kv' Hin; apply Hmiss; by right).
  apply lookup_insert_ne, Hmiss. by left.
Qed.


(** The header map [Analyze] scores. A header whose lower-cased name no
    other header of the request shares is found under that name, its
    values joined by a comma and a space; a name that is the lower-cased
    form of no header of the request is missing. *)
Theorem normalizeHeaders_lookup (r : Request) (k : string) (v : list string) :
  (reqHeader r !! k = Some v →
   (∀ k2, is_Some (reqHeader r !! k2) → ToLower k2 = ToLower k → k2 = k) →
   normalizeHeaders r !! ToLower k = Some (Join v ", "))
  ∧ (∀ n, (∀ k2, is_Some (reqHeader r !! k2) → ToLower k2 ≠ n) →
          normalizeHeaders r !! n = None).
Proof.
  unfold normalizeHeaders, headersOver. split.
  - intros Hk Honly. apply headersOver_from_hit.
    + intros [k2 v2] Hin Hlow. simpl in *.
      apply elem_of_map_to_list in Hin.
      assert (k2 = k) by (apply Honly; [by eexists | done]). subst k2.
      rewrite Hk in Hin. by injection Hin as <-.
    + left. exists (k, v). split; [by apply elem_of_map_to_list | done].
  - intros n Hmiss. rewrite headersOver_from_miss; [apply lookup_empty|].
    intros [k2 v2] Hin. simpl. apply elem_of_map_to_list in Hin.
    apply Hmiss. by eexists.
Qed.

Lemma normalizeHeaders_lookup_witness :
  normalizeHeaders
    (readRequest
       {| rawMethod := "GET"; rawPath := "/";
          rawFields := [("Accept", "text/html"); ("Accept", "*/*")];
          rawRemoteAddr := "203.0.113.7:51000" |})
  !! "accept"
  = Some "text/html, */*".
Proof.
  match goal with |- normalizeHeaders ?req !! _ = _ => set (r := req) end.
  apply (proj1 (normalizeHeaders_lookup r "Accept" ["text/html"; "*/*"])).
  - vm_compute. reflexivity.
  - intros k2 [v2 Hk2] _.
    destruct (decide (k2 = "Accept")) as [->|Hne]; [done|].
    assert (Hnone : reqHeader r !! k2 = None).
    { subst r. unfold readRequest, addField. simpl.
      rewrite lookup_insert_ne by done. rewrite lookup_insert_ne by done.
      apply lookup_empty. }
    congruence.
Defined.



(* ===================================================================== *)
(** ** Further facts on the engine, the middleware and [New] *)
(* ===================================================================== *)

Section engine_more.
Context {RE : Regexp}.

Lemma Analyze_inv b now r d b1 :
  Analyze b now r = Some (d, b1) →
  ∃ ip, extractIP r = Some ip
    ∧ ((d = {| Action := "block"; Reason := "known_bot_ua"; Confidence := 0.95 |}
        ∧ b1 = b)
       ∨ (d = {| Action := "block"; Reason := "known_bot_ip"; Confidence := 0.90 |}
          ∧ b1 = b)
       ∨ (b1 = setLimiter b (snd (isExceeded (limiter b) now ip))
          ∧ (d = {| Action := "block"; Reason := "rate_limit"; Confidence := 0.70 |}
             ∨ (Action d = "block" ∧ Reason d = "header_anomaly"
                ∧ headerAnomalyScore (rules b) (normalizeHeaders r)
                  = Some (Confidence d)
                ∧ (anomalyThreshold (rules b) <? Confidence d)%float = true)
             ∨ d = {| Action := "allow"; Reason := EmptyString; Confidence := 0 |}))).
Proof.
  unfold Analyze. destruct (extractIP r) as [ip|]; [|discriminate].
  intros H. exists ip. split; [done|].
  destruct (isBlockedUA (rules b) _).
  { injection H as <- <-. by left. }
  destruct (isBlockedIP (rules b) ip).
  { injection H as <- <-. right. by left. }
  right. right.
  destruct (isExceeded (limiter b) now ip) as [exceeded rl] eqn:Hex. simpl.
  destruct exceeded.
  { injection H as <- <-. split; [done|]. by left. }
  destruct (headerAnomalyScore (rules b) (normalizeHeaders r)) as [score|];
    [|discriminate].
  destruct (anomalyThreshold (rules b) <? score)%float eqn:Hlt.
  - injection H as <- <-. split; [done|]. right. left. done.
  - injection H as <- <-. split; [done|]. right. by right.
Qed.

Lemma Analyze_action b now r d b1 :
  Analyze b now r = Some (d, b1) → Action d = "block" ∨ Action d = "allow".
Proof.
  intros H. destruct (Analyze_inv _ _ _ _ _ H) as (ip & _ & Hcases).
  destruct Hcases as [[-> _]|[[-> _]|[_ [->|[(Ha & _)| ->]]]]]; auto.
Qed.

Lemma Analyze_None_iff b now r :
  cachesFresh (rules b) → Analyze b now r = None ↔ extractIP r = None.
Proof.
  intros Hfresh. split; [|apply Analyze_panics].
  unfold Analyze. destruct (extractIP r) as [ip|]; [|done].
  destruct (isBlockedUA _ _); [discriminate|].
  destruct (isBlockedIP _ _); [discriminate|].
  destruct (isExceeded _ _ _) as [[] rl]; [discriminate|].
  rewrite cachesFresh_score by done.
  destruct (_ <? _)%float; discriminate.
Qed.

End engine_more.

(** What a call of [Analyze] leaves alone: the rules, the telemetry client,
    the settings of the limiter and the window of every address other than
    the client's; and a request blocked for its user agent or its address
    is not counted by the rate limiter, the whole instance is unchanged. *)
Theorem Analyze_frame {RE : Regexp} (b : Bbloker) (now : Z) (r : Request)
    (d : Decision) (b1 : Bbloker) :
  Analyze b now r = Some (d, b1) →
  rules b1 = rules b
  ∧ telemetry b1 = telemetry b
  ∧ maxRequests (limiter b1) = maxRequests (limiter b)
  ∧ windowMs (limiter b1) = windowMs (limiter b)
  ∧ (∀ other, extractIP r ≠ Some other →
       windows (limiter b1) !! other = windows (limiter b) !! other)
  ∧ (Reason d = "known_bot_ua" ∨ Reason d = "known_bot_ip" → b1 = b).
Proof.
  intros H. destruct (Analyze_inv _ _ _ _ _ H) as (ip & Hip & Hcases).
  destruct Hcases as [[-> ->]|[[-> ->]|[-> Hd]]]; try done.
  destruct (isExceeded_config (limiter b) now ip) as [Hm Hw].
  simpl. split; [done|]. split; [done|]. split; [done|]. split; [done|].
  split.
  - intros other Hother. apply isExceeded_other. congruence.
  - intros Hreason. exfalso.
    destruct Hd as [->|[(_ & Hr & _)| ->]]; simpl in Hreason;
      try rewrite Hr in Hreason; destruct Hreason; discriminate.
Qed.

(** A request from [curl] under a rule set that blocks every user agent:
    blocked, and the instance is as it was. *)
Lemma Analyze_frame_witness :
  let b := {| rules := @applyRules defaultPatternsEngine
                         (@newRuleManager defaultPatternsEngine
                            "https://bbloker.com" "bb-sk-1") rulesEmptyUA;
              telemetry := newTelemetryClient "https://bbloker.com" "bb-sk-1" 100 true;
              limiter := newRateLimiter 60 60000 |} in
  ∃ d b1,
    @Analyze defaultPatternsEngine b 1000 (readRequest curlRequest) = Some (d, b1)
    ∧ Reason d = "known_bot_ua"
    ∧ b1 = b.
Proof.
  intros b.
  assert (H : @Analyze defaultPatternsEngine b 1000 (readRequest curlRequest)
              = Some ({| Action := "block"; Reason := "known_bot_ua";
                         Confidence := 0.95 |}, b)).
  { apply (@Analyze_blocked_ua defaultPatternsEngine b 1000
             (readRequest curlRequest) "203.0.113.7");
      vm_compute; reflexivity. }
  eexists _, _. split; [exact H|]. split; [reflexivity|].
  apply (@Analyze_frame defaultPatternsEngine b 1000 (readRequest curlRequest)
           _ _ H).
  left. reflexivity.
Defined.

(** With the caches fresh, [Analyze] panics on a request exactly when
    [extractIP] does; every other request gets a decision. *)
Theorem Analyze_panics_iff {RE : Regexp} (b : Bbloker) (now : Z) (r : Request) :
  cachesFresh (rules b) →
  (Analyze b now r = None ↔ extractIP r = None)
  ∧ (∀ ip, extractIP r = Some ip → ∃ d b1, Analyze b now r = Some (d, b1)).
Proof.
  intros Hfresh. split; [by apply Analyze_None_iff|].
  intros ip Hip. destruct (Analyze b now r) as [[d b1]|] eqn:Ha; [by eexists _, _|].
  apply Analyze_None_iff in Ha; [congruence | done].
Qed.

Lemma Analyze_panics_iff_witness :
  let b := @newBbloker defaultPatternsEngine "https://bbloker.com" "bb-sk-1"
             100 true 60 60000 in
  @Analyze defaultPatternsEngine b 1000 (readRequest bracketRequest) = None
  ↔ extractIP (readRequest bracketRequest) = None.
Proof.
  intros b.
  apply (proj1 (@Analyze_panics_iff defaultPatternsEngine b 1000
                  (readRequest bracketRequest)
                  (@cachesFresh_applyRules defaultPatternsEngine _ defaultRules))).
Defined.

(** The middleware, with the caches fresh. It panics exactly when
    [extractIP] does. Otherwise the request is analysed once, its
    fingerprint is handed to telemetry whether it is blocked or not, the
    next handler is reached exactly when the decision is to allow, and a
    blocked request gets the 403 exactly when no [OnBlock] is set and the
    response of [OnBlock] otherwise. *)
Theorem Handler_outcome {RE : Regexp} {Response : Type}
    (cfg : @Config Response) (b : Bbloker) (now nowFp : Z) (r : Request) :
  cachesFresh (rules b) →
  (Handler cfg b now nowFp r = None ↔ extractIP r = None)
  ∧ (∀ out fp b1,
       Handler cfg b now nowFp r = Some (out, fp, b1) →
       ∃ d, Analyze b now r = Some (d, b1)
         ∧ buildFingerprint r nowFp = Some fp
         ∧ (out = Served ↔ Action d = "allow")
         ∧ (out = Forbidden ↔ Action d = "block" ∧ OnBlock cfg = None)
         ∧ (∀ resp, out = Custom resp →
              ∃ onBlock, OnBlock cfg = Some onBlock ∧ resp = onBlock r d
                         ∧ Action d = "block")).
Proof.
  intros Hfresh. split.
  - unfold Handler. split.
    + destruct (Analyze b now r) as [[d b1]|] eqn:Ha;
        [|intros _; by apply (Analyze_None_iff b now r Hfresh)].
      unfold buildFingerprint, buildFingerprintOver.
      destruct (extractIP r) as [ip|]; [|done]. simpl.
      destruct (String.eqb (Action d) "block"); [|discriminate].
      destruct (OnBlock cfg); discriminate.
    + intros Hip. by rewrite Analyze_panics.
  - intros out fp b1. unfold Handler.
    destruct (Analyze b now r) as [[d b2]|] eqn:Ha; [|discriminate].
    destruct (buildFingerprint r nowFp) as [fp2|]; [|discriminate].
    pose proof (Analyze_action _ _ _ _ _ Ha) as Hact.
    destruct (String.eqb_spec (Action d) "block") as [Hblock|Hnot].
    + destruct (OnBlock cfg) as [onBlock|] eqn:Hon; intros [= <- <- <-];
        exists d; (split; [done|]); (split; [done|]).
      * split; [split; [discriminate | intros Hallow; congruence]|].
        split; [split; [discriminate | intros [_ ?]; discriminate]|].
        intros resp [= <-]. by exists onBlock.
      * split; [split; [discriminate | intros Hallow; congruence]|].
        split; [done|]. intros resp Hc. discriminate.
    + intros [= <- <- <-]. exists d. split; [done|]. split; [done|].
      destruct Hact as [?|Hallow]; [done|].
      split; [done|].
      split; [split; [discriminate | intros [? _]; done]|].
      intros resp Hc. discriminate.
Qed.

Lemma Handler_outcome_witness :
  let b := @newBbloker defaultPatternsEngine "https://bbloker.com" "bb-sk-1"
             100 true 60 60000 in
  let cfg := {| APIKey := "bb-sk-1"; APIURL := EmptyString; SyncInterval := 0;
                FlushInterval := 0; BufferSize := 0; Telemetry := None;
                RateLimit := 0; RateLimitWindow := 0;
                OnBlock := @None (Request → Decision → nat) |} in
  @Handler defaultPatternsEngine nat cfg b 1000 1001 (readRequest bracketRequest)
  = None
  ↔ extractIP (readRequest bracketRequest) = None.
Proof.
  intros b cfg.
  apply (proj1 (@Handler_outcome defaultPatternsEngine nat cfg b 1000 1001
                  (readRequest bracketRequest)
                  (@cachesFresh_applyRules defaultPatternsEngine _ defaultRules))).
Defined.

Lemma Milliseconds_short d : 0 < d < 1000000 → Milliseconds d = 0.
Proof. intros Hd. unfold Milliseconds. apply Z.quot_small. lia. Qed.

(** The settings [New] installs. A rate limit, a buffer size and a window
    that are not zero are kept as given, negative ones too; a zero is
    replaced by 60, 100 and 60 s; so neither the cap nor the buffer size of
    a new instance is zero. Telemetry is on unless it is switched off. A
    window under one millisecond becomes a window of 0 ms. Defaulting
    twice is defaulting once. *)
Theorem New_settings {RE : Regexp} {Response : Type} (cfg : @Config Response) :
  let b := snd (New cfg) in
  maxRequests (limiter b) ≠ 0
  ∧ maxBuffer (telemetry b) ≠ 0
  ∧ maxRequests (limiter b) = (if RateLimit cfg =? 0 then 60 else RateLimit cfg)
  ∧ maxBuffer (telemetry b) = (if BufferSize cfg =? 0 then 100 else BufferSize cfg)
  ∧ enabled (telemetry b) = default true (Telemetry cfg)
  ∧ (RateLimitWindow cfg = 0 → windowMs (limiter b) = 60000)
  ∧ (0 < RateLimitWindow cfg < 1000000 → windowMs (limiter b) = 0)
  ∧ withDefaults (withDefaults cfg) = withDefaults cfg.
Proof.
  intros b. subst b. unfold New. cbn [snd limiter telemetry newRateLimiter
    newTelemetryClient maxRequests maxBuffer enabled windowMs withDefaults
    RateLimit BufferSize Telemetry RateLimitWindow].
  split; [destruct (Z.eqb_spec (RateLimit cfg) 0); first [done | discriminate]|].
  split; [destruct (Z.eqb_spec (BufferSize cfg) 0); first [done | discriminate]|].
  split; [done|]. split; [done|].
  split; [by destruct (Telemetry cfg)|].
  split; [intros ->; reflexivity|].
  split.
  - intros Hw. replace (RateLimitWindow cfg =? 0) with false
      by (symmetry; apply Z.eqb_neq; lia).
    by apply Milliseconds_short.
  - unfold withDefaults. cbn [APIKey APIURL SyncInterval FlushInterval BufferSize
      Telemetry RateLimit RateLimitWindow OnBlock].
    f_equal.
    + destruct (String.eqb_spec (APIURL cfg) EmptyString) as [He|Hne]; [done|].
      by apply String.eqb_neq in Hne as ->.
    + destruct (Z.eqb_spec (SyncInterval cfg) 0) as [He|Hne]; [done|].
      by apply Z.eqb_neq in Hne as ->.
    + destruct (Z.eqb_spec (FlushInterval cfg) 0) as [He|Hne]; [done|].
      by apply Z.eqb_neq in Hne as ->.
    + destruct (Z.eqb_spec (BufferSize cfg) 0) as [He|Hne]; [done|].
      by apply Z.eqb_neq in Hne as ->.
    + by destruct (Telemetry cfg).
    + destruct (Z.eqb_spec (RateLimit cfg) 0) as [He|Hne]; [done|].
      by apply Z.eqb_neq in Hne as ->.
    + destruct (Z.eqb_spec (RateLimitWindow cfg) 0) as [He|Hne]; [done|].
      by apply Z.eqb_neq in Hne as ->.
Qed.

Lemma New_settings_witness :
  let cfg := {| APIKey := "bb-sk-1"; APIURL := EmptyString; SyncInterval := 0;
                FlushInterval := 0; BufferSize := 0; Telemetry := None;
                RateLimit := -5; RateLimitWindow := 500000;
                OnBlock := @None (Request → Decision → nat) |} in
  windowMs (limiter (snd (@New defaultPatternsEngine nat cfg))) = 0.
Proof.
  intros cfg.
  apply (proj1 (proj2 (proj2 (proj2 (proj2 (proj2 (proj2
           (@New_settings defaultPatternsEngine nat cfg)))))))).
  simpl. lia.
Defined.

(** An instance made by [New] with a rate-limit window under one
    millisecond never limits anybody: while the clock does not go back,
    [isExceeded] answers false to every call. *)
Theorem New_short_window_never_limits {RE : Regexp} {Response : Type}
    (cfg : @Config Response) (ip : string) (t0 : Z) (times : list Z) :
  0 < RateLimitWindow cfg < 1000000 →
  nondecreasing t0 times →
  Forall (λ t, minInt64 <= t <= maxInt64) (t0 :: times) →
  fst (isExceededSeq (limiter (snd (New cfg))) ip (t0 :: times))
  = replicate (length (t0 :: times)) false.
Proof.
  intros Hw Hmono Hrange.
  assert (Hms : windowMs (limiter (snd (New cfg))) = 0).
  { unfold New. simpl. replace (RateLimitWindow cfg =? 0) with false
      by (symmetry; apply Z.eqb_neq; lia).
    by apply Milliseconds_short. }
  apply isExceededSeq_nonpositive_window.
  - lia.
  - unfold opensWindow, New. simpl. by rewrite lookup_empty.
  - done.
  - eapply Forall_impl; [exact Hrange|].
    intros t Ht. simpl in Ht. unfold windowFits. rewrite Hms. lia.
Qed.

Lemma New_short_window_never_limits_witness :
  let cfg := {| APIKey := "bb-sk-1"; APIURL := EmptyString; SyncInterval := 0;
                FlushInterval := 0; BufferSize := 0; Telemetry := None;
                RateLimit := 1; RateLimitWindow := 500000;
                OnBlock := @None (Request → Decision → nat) |} in
  fst (isExceededSeq (limiter (snd (@New defaultPatternsEngine nat cfg)))
         "203.0.113.7" [5; 5; 6])
  = [false; false; false].
Proof.
  intros cfg.
  apply (@New_short_window_never_limits defaultPatternsEngine nat cfg
           "203.0.113.7" 5 [5; 6]).
  - simpl. lia.
  - simpl. lia.
  - repeat constructor; unfold minInt64, maxInt64; lia.
Defined.
